(** * The segment codec of the template editor

    A shallow embedding of [parseSegments], [parseCodeBlock], [buildRawText]
    and [handleSegmentChange] of [frontend/src/Editor.jsx], and of the older
    [buildRawText] of [frontend/src/parseSegments.js], together with the
    properties the specification states about them.

    A JavaScript string is a sequence of UTF-16 code units; it is modelled as
    a list of code units, each a number.  The result [-1] of [indexOf] is
    [None]; every other position is a natural number. *)

From Stdlib Require Import String Ascii.
From Stdlib Require Import List Bool Arith NArith Lia.
Import ListNotations.
Local Open Scope list_scope.

(** ** Strings *)

Definition char := N.
Definition str := list char.

Definition lit (s : string) : str :=
  List.map N_of_ascii (list_ascii_of_string s).
Arguments lit s%_string.

Definition nl : char := 10%N.
Definition space : char := 32%N.
Definition lbrace : char := 123%N.
Definition rbrace : char := 125%N.

(** The three literals of the wire format. *)
Definition opener : str := Eval cbv in lit "{{{".
Definition closer : str := Eval cbv in lit "}}}".
Definition marker : str := Eval cbv in lit "[readonly]".

Definition char_eqb (a b : char) : bool := N.eqb a b.

Fixpoint str_eqb (a b : str) : bool :=
  match a, b with
  | [], [] => true
  | x :: a', y :: b' => char_eqb x y && str_eqb a' b'
  | _, _ => false
  end.

(** [s.startsWith(pat)] *)
Fixpoint starts_with (pat s : str) : bool :=
  match pat, s with
  | [], _ => true
  | _ :: _, [] => false
  | p :: pat', c :: s' => char_eqb p c && starts_with pat' s'
  end.

(** Position of the first occurrence of [pat] in [s]. *)
Fixpoint find (pat s : str) : option nat :=
  if starts_with pat s then Some 0
  else match s with
       | [] => None
       | _ :: s' => option_map S (find pat s')
       end.

(** [s.indexOf(pat, position)]: the search starts at [position], clamped to
    the length of [s]. *)
Definition indexOf (s pat : str) (position : nat) : option nat :=
  let from := Nat.min position (length s) in
  option_map (fun k => from + k) (find pat (skipn from s)).

(** [s.slice(a, b)] and [s.slice(a)] for positions that are not negative. *)
Definition slice (s : str) (a b : nat) : str := firstn (b - a) (skipn a s).
Definition slice_from (s : str) (a : nat) : str := skipn a s.

(** [s.includes(pat)] *)
Definition includes (s pat : str) : bool :=
  match find pat s with Some _ => true | None => false end.

(** [s.replace(pat, rep)] with a string pattern: only the first occurrence is
    replaced.  [rep] is taken literally (the source passes the empty
    string, which holds no replacement pattern). *)
Definition replace (s pat rep : str) : str :=
  match find pat s with
  | Some k => firstn k s ++ rep ++ skipn (k + length pat) s
  | None => s
  end.

(** White space and line terminators of ECMAScript, the characters that
    [trim] strips. *)
Definition is_ws (c : char) : bool :=
  ((9 <=? c) && (c <=? 13) || (c =? 32) || (c =? 160) || (c =? 5760)
   || (8192 <=? c) && (c <=? 8202) || (c =? 8232) || (c =? 8233)
   || (c =? 8239) || (c =? 8287) || (c =? 12288) || (c =? 65279))%N.

Definition starts_ws (s : str) : bool :=
  match s with
  | [] => false
  | c :: _ => is_ws c
  end.

Definition ends_ws (s : str) : bool := starts_ws (rev s).

Fixpoint trimStart (s : str) : str :=
  match s with
  | [] => []
  | c :: s' => if is_ws c then trimStart s' else s
  end.

Definition trimEnd (s : str) : str := rev (trimStart (rev s)).

(** [s.trim()] *)
Definition trim (s : str) : str := trimEnd (trimStart s).

(** [s.split(sep)] for a separator of one character. *)
Fixpoint split (s : str) (sep : char) : list str :=
  match s with
  | [] => [[]]
  | c :: s' =>
      if char_eqb c sep then [] :: split s' sep
      else match split s' sep with
           | l :: ls => (c :: l) :: ls
           | [] => [[c]]
           end
  end.

(** [a.join(sep)] *)
Fixpoint join (sep : str) (a : list str) : str :=
  match a with
  | [] => []
  | [x] => x
  | x :: a' => x ++ sep ++ join sep a'
  end.

(** [a.shift()]: the removed first element ([None] for [undefined]) and the
    array that is left. *)
Definition shift {A : Type} (a : list A) : option A * list A :=
  match a with
  | [] => (None, [])
  | x :: a' => (Some x, a')
  end.

(** [v || ""] for [v] a string or [undefined]. *)
Definition or_empty (v : option str) : str :=
  match v with
  | Some (c :: s) => c :: s
  | _ => []
  end.

(** ** Segments *)

(** [{ type: "text", content }] and
    [{ type: "code", language, readOnly, content }]. *)
Inductive Segment : Type :=
| Text (content : str)
| Code (language : str) (readOnly : bool) (content : str).

Definition is_text (seg : Segment) : bool :=
  match seg with Text _ => true | Code _ _ _ => false end.

(** ** Decoding *)

Definition parseCodeBlock (blockText : str) : Segment :=
  let lines := split blockText nl in
  let '(first, lines) := shift lines in
  let firstLine := or_empty first in
  let content := join [nl] lines in
  let readOnly := includes firstLine marker in
  let firstLine :=
    if readOnly then trim (replace firstLine marker []) else firstLine in
  let language := trim firstLine in
  Code language readOnly content.

(** What [parseCodeBlock] makes of the first line of a block: the language. *)
Definition header_language (firstLine : str) : str :=
  trim (if includes firstLine marker
        then trim (replace firstLine marker [])
        else firstLine).

(** The variables of the loop of [parseSegments]. *)
Record state : Type := mkState { index : nat; segments : list Segment }.

Inductive step : Type :=
| Next (st : state)
| Break (segs : list Segment).

(** One run of the body of [while (index < rawText.length)]. *)
Definition loop_body (rawText : str) (st : state) : step :=
  match indexOf rawText opener (index st) with
  | None =>
      Break (segments st ++ [Text (slice_from rawText (index st))])
  | Some start =>
      let segs :=
        if index st <? start
        then segments st ++ [Text (slice rawText (index st) start)]
        else segments st in
      match indexOf rawText closer (start + 3) with
      | None =>
          Break (segs ++ [parseCodeBlock (slice_from rawText (start + 3))])
      | Some end_ =>
          Next (mkState (end_ + 3)
                  (segs ++ [parseCodeBlock (slice rawText (start + 3) end_)]))
      end
  end.

(** The loop, with a bound on the number of runs of its body; [None] when the
    bound is reached with the loop still running. *)
Fixpoint while (fuel : nat) (rawText : str) (st : state)
  : option (list Segment) :=
  if index st <? length rawText then
    match fuel with
    | O => None
    | S fuel' =>
        match loop_body rawText st with
        | Break segs => Some segs
        | Next st' => while fuel' rawText st'
        end
    end
  else Some (segments st).

Definition parseSegments (rawText : str) : option (list Segment) :=
  while (length rawText) rawText (mkState 0 []).

(** ** Encoding *)

Definition roMarker (readOnly : bool) : str :=
  if readOnly then space :: marker else [].

Definition render (seg : Segment) : str :=
  match seg with
  | Text c => c
  | Code language readOnly c =>
      opener ++ language ++ roMarker readOnly ++ [nl] ++ c ++ closer
  end.

Definition buildRawText (segments : list Segment) : str :=
  join [] (List.map render segments).

(** [encode(decode(s))] *)
Definition reencode (s : str) : option str :=
  option_map buildRawText (parseSegments s).

(** ** How the loop reads a raw text

    [Parse s d] follows the loop of [parseSegments] over what is left of the
    raw text: nothing; text with no opening delimiter; text, an opening
    delimiter and a body with no closing delimiter; or text, an opening
    delimiter, a body up to the first closing delimiter, and the rest. *)

Definition text_seg (t : str) : list Segment :=
  match t with
  | [] => []
  | _ :: _ => [Text t]
  end.

Inductive Parse : str -> list Segment -> Prop :=
| Parse_nil : Parse [] []
| Parse_text (t : str) :
    t <> [] -> find opener t = None -> Parse t [Text t]
| Parse_open (t b : str) :
    find opener (t ++ opener) = Some (length t) ->
    find closer b = None ->
    Parse (t ++ opener ++ b) (text_seg t ++ [parseCodeBlock b])
| Parse_block (t b rest : str) (d : list Segment) :
    find opener (t ++ opener) = Some (length t) ->
    find closer (b ++ closer) = Some (length b) ->
    Parse rest d ->
    Parse (t ++ opener ++ b ++ closer ++ rest)
          (text_seg t ++ parseCodeBlock b :: d).

(** ** Predicates on raw texts and documents *)

(** An opening delimiter at [p] with no closing delimiter after it. *)
Definition unmatched_open (s : str) (p : nat) : bool :=
  starts_with opener (skipn p s) && negb (includes (skipn (p + 3) s) closer).

(** No text segment is followed at once by another text segment. *)
Fixpoint no_adjacent_text (d : list Segment) : bool :=
  match d with
  | [] => true
  | seg :: d' =>
      match seg, d' with
      | Text _, Text _ :: _ => false
      | _, _ => no_adjacent_text d'
      end
  end.

(** [t] is [s] with the white space at both ends taken off. *)
Definition trimmed_of (s t : str) : Prop :=
  exists wl wr,
    s = wl ++ t ++ wr
    /\ forallb is_ws wl = true /\ forallb is_ws wr = true
    /\ starts_ws t = false /\ ends_ws t = false.

(** The rendering of one segment as the specification words it: a text
    segment is its content; a code segment is the opening delimiter, the
    language, the marker after one space when the segment is read-only, a
    newline, the content and the closing delimiter. *)
Definition render_spec (seg : Segment) : str :=
  match seg with
  | Text c => c
  | Code language readOnly c =>
      opener ++ language
        ++ (if readOnly then [space] ++ marker else [])
        ++ [nl] ++ c ++ closer
  end.

Definition writable (seg : Segment) : bool :=
  match seg with
  | Text _ => true
  | Code _ readOnly _ => negb readOnly
  end.

(** ** The encoder of [parseSegments.js] *)

Module ParseSegmentsJs.

(** A string in a condition counts as true when it is not empty. *)
Definition truthy (s : str) : bool :=
  match s with
  | [] => false
  | _ :: _ => true
  end.

Definition render (seg : Segment) : str :=
  match seg with
  | Text c => c
  | Code language _ c =>
      opener ++ (if truthy language then language ++ [nl] else [nl])
        ++ c ++ closer
  end.

Definition buildRawText (segments : list Segment) : str :=
  join [] (List.map render segments).

(** The object that the loop of [parseSegments] pushes for a closed block:
    when the block has a newline, the language is its first line, trimmed,
    and the content is what follows the newline; otherwise the language is
    empty and the content is the whole block.  The objects of this file have
    no [readOnly] field; every condition in the code reads a missing field
    as false, and so it is modelled. *)
Definition codeSegment (codeBlock : str) : Segment :=
  match indexOf codeBlock [nl] 0 with
  | None => Code [] false codeBlock
  | Some firstLineBreak =>
      Code (trim (slice codeBlock 0 firstLineBreak)) false
           (slice_from codeBlock (firstLineBreak + 1))
  end.

(** One run of the body of [while (currentIndex < rawText.length)]. *)
Definition loop_body (rawText : str) (st : state) : step :=
  match indexOf rawText opener (index st) with
  | None =>
      Break (segments st ++ [Text (slice_from rawText (index st))])
  | Some startIdx =>
      let segs :=
        if index st <? startIdx
        then segments st ++ [Text (slice rawText (index st) startIdx)]
        else segments st in
      match indexOf rawText closer (startIdx + 3) with
      | None =>
          Break (segs ++ [Code [] false (slice_from rawText (startIdx + 3))])
      | Some endIdx =>
          Next (mkState (endIdx + 3)
                  (segs ++ [codeSegment (slice rawText (startIdx + 3) endIdx)]))
      end
  end.

Fixpoint while (fuel : nat) (rawText : str) (st : state)
  : option (list Segment) :=
  if index st <? length rawText then
    match fuel with
    | O => None
    | S fuel' =>
        match loop_body rawText st with
        | Break segs => Some segs
        | Next st' => while fuel' rawText st'
        end
    end
  else Some (segments st).

Definition parseSegments (rawText : str) : option (list Segment) :=
  while (length rawText) rawText (mkState 0 []).

(** [encode(decode(s))] with the functions of this file. *)
Definition reencode (s : str) : option str :=
  option_map buildRawText (parseSegments s).

End ParseSegmentsJs.

(** ** Documents that survive a round trip *)

(** [s] ends with the character [c]. *)
Definition ends_with (c : char) (s : str) : bool :=
  match rev s with
  | [] => false
  | x :: _ => char_eqb x c
  end.

(** Well-formed in the words of the specification: in the raw text of the
    document every opening delimiter has a closing delimiter after it, and
    the body of every code block has a first line, ended by a newline and
    not empty. *)
Definition every_open_closed (s : str) : bool :=
  forallb (fun p => implb (starts_with opener (skipn p s))
                          (includes (skipn (p + 3) s) closer))
          (seq 0 (length s)).

Definition has_first_line (seg : Segment) : bool :=
  match seg with
  | Text _ => true
  | Code language readOnly c =>
      let body := language ++ roMarker readOnly ++ [nl] ++ c in
      existsb (char_eqb nl) body
      && negb (str_eqb (hd [] (split body nl)) [])
  end.

Definition spec_well_formed (d : list Segment) : bool :=
  every_open_closed (buildRawText d) && forallb has_first_line d.

(** A code segment that [parseSegments] reads back as it is: the language
    is trimmed and holds no newline, no marker and no closing delimiter; the
    content holds no closing delimiter and does not end with a closing
    brace. *)
Definition canonical_code (language c : str) : bool :=
  str_eqb (trim language) language
  && negb (existsb (char_eqb nl) language)
  && negb (includes language marker)
  && negb (includes language closer)
  && negb (includes c closer)
  && negb (ends_with rbrace c).

(** A document that [parseSegments] reads back as it is: every code segment
    is as above; every text segment is not empty, holds no opening
    delimiter, is not followed by a text segment and, when a code segment
    follows, does not end with an opening brace. *)
Fixpoint canonical (d : list Segment) : bool :=
  match d with
  | [] => true
  | Text t :: d' =>
      negb (str_eqb t []) && negb (includes t opener)
      && match d' with
         | [] => true
         | Text _ :: _ => false
         | Code _ _ _ :: _ => negb (ends_with lbrace t)
         end
      && canonical d'
  | Code language _ c :: d' => canonical_code language c && canonical d'
  end.

(** The language of the segment holds neither the marker nor a closing
    delimiter. *)
Definition plain_language (seg : Segment) : bool :=
  match seg with
  | Text _ => true
  | Code language _ _ =>
      negb (includes language marker) && negb (includes language closer)
  end.

(** ** The segment array of the editor

    The array in the state of [Editor] holds references to the segment
    objects that [parseSegments] made.  [handleSegmentChange] copies the
    array, not the objects, and assigns to the [content] field of the object
    that [updated[idx]] refers to; an object reached from two places changes
    in both. *)

Module Store.

Definition ref := nat.

(** The objects, by address. *)
Definition heap := list Segment.

(** [seg.content = v] *)
Definition set_content (seg : Segment) (v : str) : Segment :=
  match seg with
  | Text _ => Text v
  | Code language readOnly _ => Code language readOnly v
  end.

Fixpoint write (h : heap) (r : ref) (seg : Segment) : heap :=
  match h, r with
  | [], _ => []
  | _ :: h', O => seg :: h'
  | x :: h', S r' => x :: write h' r' seg
  end.

(** The new heap and the array handed to [setSegments]; [None] when
    [updated[idx]] is [undefined] and the assignment throws. *)
Definition handleSegmentChange
  (h : heap) (segments : list ref) (idx : nat) (newValue : str)
  : option (heap * list ref) :=
  let updated := segments in
  match nth_error updated idx with
  | None => None
  | Some r =>
      match nth_error h r with
      | None => None
      | Some obj => Some (write h r (set_content obj newValue), updated)
      end
  end.

(** The segments that an array refers to. *)
Fixpoint view (h : heap) (segments : list ref) : option (list Segment) :=
  match segments with
  | [] => Some []
  | r :: rs =>
      match nth_error h r, view h rs with
      | Some x, Some xs => Some (x :: xs)
      | _, _ => None
      end
  end.

(** No object is referred to twice. *)
Fixpoint distinct (segments : list ref) : bool :=
  match segments with
  | [] => true
  | r :: rs => negb (existsb (Nat.eqb r) rs) && distinct rs
  end.

(** The array that [parseSegments] builds: every [push] of an object
    literal makes a new object. *)
Definition alloc (h : heap) (d : list Segment) : heap * list ref :=
  (h ++ d, seq (length h) (length d)).

End Store.

(** ** The cut of a raw text

    Both decoders cut the raw text in the same way and differ in what they
    make of a block: a piece is a stretch of text, the body of a closed
    block, or the body of a block that is never closed. *)

Inductive Piece : Type :=
| PText (t : str)
| PBlock (body : str)
| POpen (body : str).

Definition text_piece (t : str) : list Piece :=
  match t with
  | [] => []
  | _ :: _ => [PText t]
  end.

Inductive Cut : str -> list Piece -> Prop :=
| Cut_nil : Cut [] []
| Cut_text (t : str) :
    t <> [] -> find opener t = None -> Cut t [PText t]
| Cut_open (t b : str) :
    find opener (t ++ opener) = Some (length t) ->
    find closer b = None ->
    Cut (t ++ opener ++ b) (text_piece t ++ [POpen b])
| Cut_block (t b rest : str) (ps : list Piece) :
    find opener (t ++ opener) = Some (length t) ->
    find closer (b ++ closer) = Some (length b) ->
    Cut rest ps ->
    Cut (t ++ opener ++ b ++ closer ++ rest) (text_piece t ++ PBlock b :: ps).

(** The characters of a piece in the raw text. *)
Definition piece_raw (p : Piece) : str :=
  match p with
  | PText t => t
  | PBlock b => opener ++ b ++ closer
  | POpen b => opener ++ b
  end.

(** The segment that [parseSegments] of [Editor.jsx] makes of a piece. *)
Definition editor_segment (p : Piece) : Segment :=
  match p with
  | PText t => Text t
  | PBlock b => parseCodeBlock b
  | POpen b => parseCodeBlock b
  end.

(** The segment that [parseSegments] of [parseSegments.js] makes of it. *)
Definition legacy_segment (p : Piece) : Segment :=
  match p with
  | PText t => Text t
  | PBlock b => ParseSegmentsJs.codeSegment b
  | POpen b => Code [] false b
  end.

(** A code segment that [parseSegments.js] reads back as it is: it is not
    read-only, the language is trimmed and holds no newline and no closing
    delimiter, the content holds no closing delimiter and does not end with
    a closing brace. *)
Definition legacy_canonical_code (language : str) (readOnly : bool) (c : str)
  : bool :=
  negb readOnly
  && str_eqb (trim language) language
  && negb (existsb (char_eqb nl) language)
  && negb (includes language closer)
  && negb (includes c closer)
  && negb (ends_with rbrace c).

Fixpoint legacy_canonical (d : list Segment) : bool :=
  match d with
  | [] => true
  | Text t :: d' =>
      negb (str_eqb t []) && negb (includes t opener)
      && match d' with
         | [] => true
         | Text _ :: _ => false
         | Code _ _ _ :: _ => negb (ends_with lbrace t)
         end
      && legacy_canonical d'
  | Code language readOnly c :: d' =>
      legacy_canonical_code language readOnly c && legacy_canonical d'
  end.

(** ** Copying the raw text *)

(** [s.replace(/pat/g, rep)] for a regular expression that matches the
    literal [pat], which is not empty, and a replacement with no pattern in
    it: the matches are taken from left to right and do not overlap.
    [skip] counts the characters of the last match still to be passed. *)
Fixpoint replace_global_from (skip : nat) (s pat rep : str) : str :=
  match s with
  | [] => []
  | c :: s' =>
      match skip with
      | S k => replace_global_from k s' pat rep
      | O =>
          if starts_with pat s
          then rep ++ replace_global_from (length pat - 1) s' pat rep
          else c :: replace_global_from 0 s' pat rep
      end
  end.

Definition replace_global (s pat rep : str) : str :=
  replace_global_from 0 s pat rep.

(** The four backticks that take the place of a delimiter. *)
Definition ticks : str := Eval cbv in lit "````".

Module App.

(** [handleCopyRawText] of lines 113 to 125 of [App.jsx]: what is written
    to the clipboard, [None] when the function returns before writing.
    [selected] tells whether a template is selected, [finalRaw] is what
    [getRawText] of the editor returned, [None] for [undefined]. *)
Definition handleCopyRawText_markers (selected : bool) (finalRaw : option str)
  : option str :=
  if selected then
    match finalRaw with
    | None => None
    | Some r => Some (replace_global r marker [])
    end
  else None.

(** [handleCopyRawText] of lines 313 to 328 of [App.jsx]. *)
Definition handleCopyRawText (selected : bool) (finalRaw : option str)
  : option str :=
  if selected then
    match finalRaw with
    | None => None
    | Some r =>
        Some (replace_global
                (replace_global (replace_global r marker []) opener ticks)
                closer ticks)
    end
  else None.

End App.

(** A segment written with [o] and [cl] for the delimiters and [mk] for the
    marker. *)
Definition render_as (o cl mk : str) (seg : Segment) : str :=
  match seg with
  | Text c => c
  | Code language readOnly c =>
      o ++ language ++ (if readOnly then space :: mk else [])
        ++ [nl] ++ c ++ cl
  end.

(** A segment as [buildRawText] writes it, without the marker. *)
Definition render_unmarked (seg : Segment) : str :=
  render_as opener closer [] seg.

(** A segment between fences of four backticks, without the marker. *)
Definition render_fenced (seg : Segment) : str :=
  render_as ticks ticks [] seg.

(** No field of the segment holds [pat]. *)
Definition field_free (pat : str) (seg : Segment) : bool :=
  match seg with
  | Text t => negb (includes t pat)
  | Code language _ c => negb (includes language pat) && negb (includes c pat)
  end.

(** A document whose raw text holds the marker and the delimiters where
    [buildRawText] wrote them and nowhere else: no field holds the marker or
    a delimiter, no text segment is followed by a text segment, no text
    segment ends with an opening brace before a code segment and no content
    ends with a closing brace. *)
Fixpoint exportable (d : list Segment) : bool :=
  match d with
  | [] => true
  | seg :: d' =>
      field_free marker seg && field_free opener seg && field_free closer seg
      && match seg, d' with
         | Text _, Text _ :: _ => false
         | Text t, Code _ _ _ :: _ => negb (ends_with lbrace t)
         | Text _, [] => true
         | Code _ _ c, _ => negb (ends_with rbrace c)
         end
      && exportable d'
  end.

(** ** Changes made through the enhanced editor *)

(** In enhanced mode [Editor] renders a textarea that calls
    [handleSegmentChange] for a code segment that is not read-only; a text
    segment and a read-only code segment are rendered with nothing that can
    be changed. *)
Definition editable (h : Store.heap) (segments : list Store.ref) (idx : nat)
  : bool :=
  match nth_error segments idx with
  | None => false
  | Some r =>
      match nth_error h r with
      | Some (Code _ false _) => true
      | _ => false
      end
  end.

Inductive outcome : Type :=
| Done (h : Store.heap) (segments : list Store.ref)
| Thrown
| NotRendered.

(** A run of changes, each the index of a textarea and its new value:
    [Thrown] when [handleSegmentChange] throws, [NotRendered] when there is
    no textarea at the index. *)
Fixpoint edits (h : Store.heap) (segments : list Store.ref)
  (changes : list (nat * str)) : outcome :=
  match changes with
  | [] => Done h segments
  | (idx, newValue) :: rest =>
      if editable h segments idx then
        match Store.handleSegmentChange h segments idx newValue with
        | Some (h', segments') => edits h' segments' rest
        | None => Thrown
        end
      else NotRendered
  end.

(** A segment without what a textarea can change: the content of a code
    segment that is not read-only. *)
Definition frame (seg : Segment) : Segment :=
  match seg with
  | Code language false _ => Code language false []
  | _ => seg
  end.

(** ** Occurrences of a pattern *)

Section Occurrences.

Lemma char_eqb_eq (a b : char) : char_eqb a b = true <-> a = b.
Proof. apply N.eqb_eq. Qed.

Lemma str_eqb_eq (a b : str) : str_eqb a b = true <-> a = b.
Proof.
  revert b; induction a as [|x a IH]; intros [|y b]; simpl;
    try (split; [discriminate | congruence]); try tauto.
  rewrite andb_true_iff, char_eqb_eq, IH. split.
  - intros [-> ->]; reflexivity.
  - intros E; injection E; auto.
Qed.

Lemma starts_with_app (pat r : str) : starts_with pat (pat ++ r) = true.
Proof.
  induction pat as [|p pat IH]; simpl; [reflexivity|].
  rewrite IH, andb_true_r. apply N.eqb_refl.
Qed.

Lemma starts_with_split (pat s : str) :
  starts_with pat s = true -> s = pat ++ skipn (length pat) s.
Proof.
  revert s; induction pat as [|p pat IH]; intros [|c s]; simpl;
    try reflexivity; try discriminate.
  rewrite andb_true_iff, char_eqb_eq. intros [-> H].
  f_equal. apply IH, H.
Qed.

Lemma starts_with_length (pat s : str) :
  starts_with pat s = true -> length pat <= length s.
Proof.
  intros H. rewrite (starts_with_split _ _ H) at 1.
  rewrite length_app. lia.
Qed.

Lemma starts_with_app_l (pat x y : str) :
  starts_with pat x = true -> starts_with pat (x ++ y) = true.
Proof.
  intros H. rewrite (starts_with_split _ _ H), <- app_assoc.
  apply starts_with_app.
Qed.

Lemma starts_with_app_long (pat x y : str) :
  length pat <= length x -> starts_with pat (x ++ y) = starts_with pat x.
Proof.
  revert x; induction pat as [|p pat IH]; intros [|c x]; simpl;
    try reflexivity; try lia.
  intros H. rewrite IH by lia. reflexivity.
Qed.

(** A character that is not in the pattern cannot be part of a match. *)
Lemma starts_with_sep (pat a b : str) (c : char) :
  ~ In c pat -> starts_with pat (a ++ c :: b) = starts_with pat a.
Proof.
  revert a; induction pat as [|p pat IH]; intros a Hc; [destruct a; reflexivity|].
  destruct a as [|x a]; simpl.
  - destruct (char_eqb p c) eqn:E; [|reflexivity].
    apply char_eqb_eq in E. exfalso. apply Hc. left. exact E.
  - rewrite IH; [reflexivity|]. intros Hin. apply Hc. right. exact Hin.
Qed.

Lemma find_cons (pat : str) (c : char) (s : str) :
  find pat (c :: s)
  = if starts_with pat (c :: s) then Some 0 else option_map S (find pat s).
Proof. reflexivity. Qed.

Lemma find_nil_pat_nonempty (pat : str) : find pat [] = None -> pat <> [].
Proof. intros H ->. discriminate H. Qed.

Lemma find_Some_bound (pat s : str) (k : nat) :
  find pat s = Some k -> k + length pat <= length s.
Proof.
  revert k; induction s as [|c s IH]; intros k.
  - simpl. destruct (starts_with pat []) eqn:E; [|discriminate].
    intros [= <-]. apply starts_with_length in E. simpl in *. lia.
  - rewrite find_cons. destruct (starts_with pat (c :: s)) eqn:E.
    + intros [= <-]. apply starts_with_length in E. simpl in *. lia.
    + destruct (find pat s) as [j|]; [|discriminate].
      intros [= <-]. specialize (IH j eq_refl). simpl. lia.
Qed.

Lemma find_short (pat s : str) :
  length s < length pat -> find pat s = None.
Proof.
  intros H. destruct (find pat s) as [k|] eqn:E; [|reflexivity].
  apply find_Some_bound in E. lia.
Qed.

(** The string around the first occurrence. *)
Lemma find_Some_split (pat s : str) (k : nat) :
  find pat s = Some k ->
  s = firstn k s ++ pat ++ skipn (k + length pat) s.
Proof.
  revert k; induction s as [|c s IH]; intros k.
  - simpl. destruct (starts_with pat []) eqn:E; [|discriminate].
    intros [= <-]. apply starts_with_split in E. exact E.
  - rewrite find_cons. destruct (starts_with pat (c :: s)) eqn:E.
    + intros [= <-]. apply starts_with_split in E. exact E.
    + destruct (find pat s) as [j|] eqn:F; [|discriminate].
      intros [= <-]. simpl. f_equal. apply IH. reflexivity.
Qed.

(** A first occurrence stays the first one when the string is extended. *)
Lemma find_app_l (pat a b : str) (k : nat) :
  find pat a = Some k -> find pat (a ++ b) = Some k.
Proof.
  revert k; induction a as [|c a IH]; intros k.
  - simpl. destruct (starts_with pat []) eqn:E; [|discriminate].
    intros [= <-]. destruct pat; [|discriminate]. destruct b; reflexivity.
  - rewrite <- app_comm_cons, !find_cons.
    destruct (starts_with pat (c :: a)) eqn:E.
    + intros [= <-]. rewrite app_comm_cons, (starts_with_app_l _ _ _ E).
      reflexivity.
    + destruct (find pat a) as [j|] eqn:F; [|discriminate].
      intros [= <-]. rewrite app_comm_cons, starts_with_app_long, E.
      * rewrite (IH j eq_refl). reflexivity.
      * apply find_Some_bound in F. simpl. lia.
Qed.

Lemma find_at_end (pat a b : str) :
  find pat (a ++ pat) = Some (length a) ->
  find pat (a ++ pat ++ b) = Some (length a).
Proof. intros H. rewrite app_assoc. apply find_app_l, H. Qed.

(** Cutting the string after its first occurrence keeps it the first. *)
Lemma find_Some_prefix (pat s : str) (k : nat) :
  find pat s = Some k ->
  find pat (firstn k s ++ pat) = Some (length (firstn k s)).
Proof.
  revert k; induction s as [|c s IH]; intros k.
  - simpl. destruct (starts_with pat []) eqn:E; [|discriminate].
    intros [= <-]. destruct pat; [reflexivity|discriminate].
  - rewrite find_cons. destruct (starts_with pat (c :: s)) eqn:E.
    + intros [= <-]. simpl firstn. simpl app. simpl length.
      pose proof (starts_with_app pat []) as R. rewrite app_nil_r in R.
      destruct pat as [|p pat]; [reflexivity|].
      rewrite find_cons, R. reflexivity.
    + destruct (find pat s) as [j|] eqn:F; [|discriminate].
      intros [= <-]. simpl firstn. rewrite <- app_comm_cons, find_cons.
      destruct (starts_with pat (c :: firstn j s ++ pat)) eqn:G.
      * exfalso. rewrite (find_Some_split _ _ _ F) in E.
        rewrite app_comm_cons, app_assoc in E.
        rewrite app_comm_cons in G.
        rewrite (starts_with_app_l _ _ _ G) in E. discriminate.
      * rewrite (IH j eq_refl). reflexivity.
Qed.

(** Some occurrence exists, so a first one does, no later than it. *)
Lemma find_exists (pat a b : str) :
  exists k, find pat (a ++ pat ++ b) = Some k /\ k <= length a.
Proof.
  induction a as [|c a IH].
  - exists 0. split; [|simpl; lia]. simpl app.
    pose proof (starts_with_app pat b) as R.
    destruct (pat ++ b) eqn:E; simpl; simpl in R; rewrite R; reflexivity.
  - rewrite <- app_comm_cons, find_cons.
    destruct (starts_with pat (c :: a ++ pat ++ b)).
    + exists 0. split; [reflexivity|simpl; lia].
    + destruct IH as (k & -> & Hk). exists (S k). split; [reflexivity|].
      simpl; lia.
Qed.

(** Dropping a prefix that ends before the first occurrence. *)
Lemma find_drop (pat a b : str) (k : nat) :
  find pat (a ++ b) = Some (length a + k) -> find pat b = Some k.
Proof.
  induction a as [|c a IH]; [auto|].
  rewrite <- app_comm_cons, find_cons.
  destruct (starts_with pat (c :: a ++ b)); [discriminate|].
  destruct (find pat (a ++ b)) as [j|]; [|discriminate].
  simpl. intros [= ->]. apply IH. reflexivity.
Qed.

Lemma find_None_app (pat a b : str) :
  find pat (a ++ b) = None -> find pat a = None /\ find pat b = None.
Proof.
  intros H. split.
  - destruct (find pat a) as [k|] eqn:E; [|reflexivity].
    rewrite (find_app_l _ _ b _ E) in H. discriminate.
  - induction a as [|c a IH]; [exact H|].
    rewrite <- app_comm_cons, find_cons in H.
    destruct (starts_with pat (c :: a ++ b)); [discriminate|].
    destruct (find pat (a ++ b)); [discriminate|]. apply IH. reflexivity.
Qed.

(** No occurrence runs over a character that the pattern does not have. *)
Lemma find_sep (pat a b : str) (c : char) :
  find pat a = None -> ~ In c pat ->
  find pat (a ++ c :: b)
  = option_map (fun k => S (length a + k)) (find pat b).
Proof.
  intros Ha Hc. induction a as [|x a IH].
  - pose proof (find_nil_pat_nonempty _ Ha) as Hp.
    simpl app. rewrite find_cons.
    pose proof (starts_with_sep pat [] b c Hc) as R. simpl app in R.
    rewrite R. destruct pat; [congruence|]. simpl.
    destruct (find (c0 :: pat) b); reflexivity.
  - rewrite find_cons in Ha.
    destruct (starts_with pat (x :: a)) eqn:E; [discriminate|].
    destruct (find pat a) eqn:F; [discriminate|].
    rewrite <- app_comm_cons, find_cons, app_comm_cons.
    rewrite (starts_with_sep _ _ _ _ Hc), E, (IH eq_refl).
    destruct (find pat b); reflexivity.
Qed.

End Occurrences.

(** ** The loop of [parseSegments] *)

Section Loop.

Lemma indexOf_at (s pre r pat : str) (n : nat) :
  s = pre ++ r -> length pre = n ->
  indexOf s pat n = option_map (fun k => n + k) (find pat r).
Proof.
  intros -> <-. unfold indexOf.
  rewrite length_app, Nat.min_l by lia.
  rewrite skipn_app, skipn_all, Nat.sub_diag. reflexivity.
Qed.

Lemma slice_at (s pre m r : str) (n : nat) :
  s = pre ++ m ++ r -> length pre = n -> slice s n (n + length m) = m.
Proof.
  intros -> <-. unfold slice.
  rewrite skipn_app, skipn_all, Nat.sub_diag. simpl.
  replace (length pre + length m - length pre) with (length m + 0) by lia.
  rewrite firstn_app_2. simpl. apply app_nil_r.
Qed.

Lemma slice_from_at (s pre r : str) (n : nat) :
  s = pre ++ r -> length pre = n -> slice_from s n = r.
Proof.
  intros -> <-. unfold slice_from.
  rewrite skipn_app, skipn_all, Nat.sub_diag. reflexivity.
Qed.

Lemma text_push (segs : list Segment) (s pre t r : str) (n : nat) :
  s = pre ++ t ++ r -> length pre = n ->
  (if n <? n + length t then segs ++ [Text (slice s n (n + length t))]
   else segs) = segs ++ text_seg t.
Proof.
  intros Hs Hn. destruct t as [|c t].
  - simpl. rewrite Nat.add_0_r, Nat.ltb_irrefl, app_nil_r. reflexivity.
  - rewrite (slice_at _ _ _ _ _ Hs Hn).
    destruct (Nat.ltb_spec n (n + length (c :: t))); [reflexivity|].
    simpl in *. lia.
Qed.

(** A run of the body with no opening delimiter left. *)
Lemma loop_body_text (pre t : str) (segs : list Segment) :
  find opener t = None ->
  loop_body (pre ++ t) (mkState (length pre) segs) = Break (segs ++ [Text t]).
Proof.
  intros H. unfold loop_body. simpl index. simpl segments.
  rewrite (indexOf_at _ pre t _ _ eq_refl eq_refl), H. simpl.
  rewrite (slice_from_at _ pre t _ eq_refl eq_refl). reflexivity.
Qed.

(** A run of the body on an opening delimiter that is never closed. *)
Lemma loop_body_open (pre t b : str) (segs : list Segment) :
  find opener (t ++ opener) = Some (length t) ->
  find closer b = None ->
  loop_body (pre ++ t ++ opener ++ b) (mkState (length pre) segs)
  = Break (segs ++ text_seg t ++ [parseCodeBlock b]).
Proof.
  intros Ho Hc. unfold loop_body. simpl index. simpl segments.
  rewrite (indexOf_at _ pre (t ++ opener ++ b) _ _ eq_refl eq_refl).
  rewrite (find_at_end _ _ _ Ho). simpl option_map. cbv beta iota zeta.
  rewrite (text_push segs _ pre t (opener ++ b) _ eq_refl eq_refl).
  assert (E : pre ++ t ++ opener ++ b = (pre ++ t ++ opener) ++ b)
    by (rewrite <- !app_assoc; reflexivity).
  assert (L : length (pre ++ t ++ opener) = length pre + length t + 3)
    by (rewrite !length_app; simpl; lia).
  rewrite (indexOf_at _ _ _ _ _ E L), Hc. simpl option_map.
  cbv beta iota zeta.
  rewrite (slice_from_at _ _ _ _ E L), <- app_assoc. reflexivity.
Qed.

(** A run of the body on a whole block. *)
Lemma loop_body_block (pre t b rest : str) (segs : list Segment) :
  find opener (t ++ opener) = Some (length t) ->
  find closer (b ++ closer) = Some (length b) ->
  loop_body (pre ++ t ++ opener ++ b ++ closer ++ rest)
    (mkState (length pre) segs)
  = Next (mkState (length (pre ++ t ++ opener ++ b ++ closer))
            (segs ++ text_seg t ++ [parseCodeBlock b])).
Proof.
  intros Ho Hc. unfold loop_body. simpl index. simpl segments.
  rewrite (indexOf_at _ pre (t ++ opener ++ b ++ closer ++ rest) _ _
             eq_refl eq_refl).
  rewrite (find_at_end _ _ _ Ho). simpl option_map. cbv beta iota zeta.
  rewrite (text_push segs _ pre t (opener ++ b ++ closer ++ rest) _
             eq_refl eq_refl).
  assert (E : pre ++ t ++ opener ++ b ++ closer ++ rest
              = (pre ++ t ++ opener) ++ b ++ closer ++ rest)
    by (rewrite <- !app_assoc; reflexivity).
  assert (L : length (pre ++ t ++ opener) = length pre + length t + 3)
    by (rewrite !length_app; simpl; lia).
  rewrite (indexOf_at _ _ _ _ _ E L), (find_at_end _ _ _ Hc).
  simpl option_map. cbv beta iota zeta.
  rewrite (slice_at _ _ _ _ _ E L), <- app_assoc.
  do 2 f_equal. rewrite !length_app. simpl. lia.
Qed.

Lemma while_done (fuel : nat) (s : str) (segs : list Segment) :
  while fuel s (mkState (length s) segs) = Some segs.
Proof. destruct fuel; simpl; rewrite Nat.ltb_irrefl; reflexivity. Qed.

Lemma while_step (fuel : nat) (s : str) (st : state) :
  index st < length s ->
  while (S fuel) s st
  = match loop_body s st with
    | Break segs => Some segs
    | Next st' => while fuel s st'
    end.
Proof.
  intros H. simpl. destruct (Nat.ltb_spec (index st) (length s)); [|lia].
  reflexivity.
Qed.

(** The loop, started anywhere in the raw text, gives what [Parse] says of
    the rest of the text, within as many runs as the rest is long. *)
Lemma Parse_while (r : str) (d : list Segment) :
  Parse r d ->
  forall (pre : str) (segs : list Segment) (fuel : nat),
    length r <= fuel ->
    while fuel (pre ++ r) (mkState (length pre) segs) = Some (segs ++ d).
Proof.
  induction 1 as [|t Ht Ho|t b Ho Hc|t b rest d Ho Hc HP IH];
    intros pre segs fuel Hf.
  - rewrite !app_nil_r. apply while_done.
  - destruct fuel as [|fuel]; [destruct t; simpl in *; [congruence|lia]|].
    rewrite while_step.
    + rewrite loop_body_text by assumption. reflexivity.
    + simpl. rewrite length_app. destruct t; simpl; [congruence|lia].
  - destruct fuel as [|fuel]; [rewrite !length_app in Hf; simpl in Hf; lia|].
    rewrite while_step.
    + rewrite loop_body_open by assumption. reflexivity.
    + simpl. rewrite !length_app. simpl. lia.
  - destruct fuel as [|fuel]; [rewrite !length_app in Hf; simpl in Hf; lia|].
    rewrite while_step.
    + rewrite loop_body_block by assumption.
      assert (E : pre ++ t ++ opener ++ b ++ closer ++ rest
                  = (pre ++ t ++ opener ++ b ++ closer) ++ rest)
        by (rewrite <- !app_assoc; reflexivity).
      rewrite E, IH.
      * rewrite <- !app_assoc. reflexivity.
      * rewrite !length_app in Hf. simpl in Hf. lia.
    + simpl. rewrite !length_app. simpl. lia.
Qed.

Lemma Parse_parseSegments (s : str) (d : list Segment) :
  Parse s d -> parseSegments s = Some d.
Proof.
  intros H. unfold parseSegments.
  apply (Parse_while _ _ H [] [] (length s)). lia.
Qed.

(** Every raw text has a reading. *)
Lemma Parse_total (s : str) : exists d, Parse s d.
Proof.
  remember (length s) as n eqn:Hn. revert s Hn.
  induction n as [n IH] using lt_wf_ind. intros s Hn.
  destruct s as [|c s]; [exists []; constructor|].
  destruct (find opener (c :: s)) as [k|] eqn:Ho.
  - pose proof (find_Some_split _ _ _ Ho) as Es.
    pose proof (find_Some_prefix _ _ _ Ho) as Ft.
    set (t := firstn k (c :: s)) in *.
    set (r := skipn (k + length opener) (c :: s)) in *.
    destruct (find closer r) as [j|] eqn:Hc.
    + pose proof (find_Some_split _ _ _ Hc) as Er.
      pose proof (find_Some_prefix _ _ _ Hc) as Fb.
      set (b := firstn j r) in *.
      set (rest := skipn (j + length closer) r) in *.
      destruct (IH (length rest)) with (s := rest) as [d Hd];
        [|reflexivity|].
      * subst n. rewrite Es, Er, !length_app. simpl. lia.
      * exists (text_seg t ++ parseCodeBlock b :: d).
        rewrite Es, Er. apply Parse_block; assumption.
    + exists (text_seg t ++ [parseCodeBlock r]).
      rewrite Es. apply Parse_open; assumption.
  - exists [Text (c :: s)]. apply Parse_text; [discriminate|assumption].
Qed.

Lemma parseSegments_Parse (s : str) (d : list Segment) :
  parseSegments s = Some d -> Parse s d.
Proof.
  intros H. destruct (Parse_total s) as [d' Hd'].
  rewrite (Parse_parseSegments _ _ Hd') in H. congruence.
Qed.

End Loop.

(** ** Trimming *)

Section Trim.

Lemma trimStart_decomp (s : str) :
  exists w, s = w ++ trimStart s /\ forallb is_ws w = true.
Proof.
  induction s as [|c s (w & E & W)]; [exists []; auto|].
  simpl. destruct (is_ws c) eqn:C.
  - exists (c :: w). simpl. rewrite C, W. split; [congruence|reflexivity].
  - exists []. auto.
Qed.

Lemma trimStart_clean (s : str) : starts_ws (trimStart s) = false.
Proof.
  induction s as [|c s IH]; [reflexivity|].
  simpl. destruct (is_ws c) eqn:C; [exact IH|exact C].
Qed.

Lemma trimStart_id (s : str) : starts_ws s = false -> trimStart s = s.
Proof. destruct s as [|c s]; simpl; [auto|]. intros ->. reflexivity. Qed.

Lemma trimEnd_decomp (s : str) :
  exists w, s = trimEnd s ++ w /\ forallb is_ws w = true.
Proof.
  destruct (trimStart_decomp (rev s)) as (w & E & W).
  exists (rev w). split.
  - unfold trimEnd. rewrite <- rev_app_distr, <- E, rev_involutive.
    reflexivity.
  - rewrite forallb_forall in *. intros x Hx. apply W, in_rev, Hx.
Qed.

Lemma trimEnd_clean (s : str) : ends_ws (trimEnd s) = false.
Proof.
  unfold ends_ws, trimEnd. rewrite rev_involutive. apply trimStart_clean.
Qed.

Lemma trimEnd_id (s : str) : ends_ws s = false -> trimEnd s = s.
Proof.
  intros H. unfold trimEnd. rewrite trimStart_id by exact H.
  apply rev_involutive.
Qed.

Lemma trimEnd_keeps_start (s : str) :
  starts_ws s = false -> starts_ws (trimEnd s) = false.
Proof.
  intros H. destruct (trimEnd_decomp s) as (w & E & _).
  destruct (trimEnd s) as [|c z]; [reflexivity|].
  rewrite E in H. exact H.
Qed.

(** [trim] cuts white space off both ends, and nothing else. *)
Lemma trim_decomp (s : str) :
  exists wl wr, s = wl ++ trim s ++ wr
                /\ forallb is_ws wl = true /\ forallb is_ws wr = true.
Proof.
  destruct (trimStart_decomp s) as (wl & E1 & W1).
  destruct (trimEnd_decomp (trimStart s)) as (wr & E2 & W2).
  exists wl, wr. unfold trim. rewrite <- E2. auto.
Qed.

Lemma trim_clean (s : str) :
  starts_ws (trim s) = false /\ ends_ws (trim s) = false.
Proof.
  unfold trim. split.
  - apply trimEnd_keeps_start, trimStart_clean.
  - apply trimEnd_clean.
Qed.

Lemma trim_id (s : str) :
  starts_ws s = false -> ends_ws s = false -> trim s = s.
Proof.
  intros H1 H2. unfold trim. rewrite (trimStart_id _ H1). apply trimEnd_id, H2.
Qed.

Lemma trim_trim (s : str) : trim (trim s) = trim s.
Proof. destruct (trim_clean s). apply trim_id; assumption. Qed.

Lemma trim_In (s : str) (x : char) : In x (trim s) -> In x s.
Proof.
  destruct (trim_decomp s) as (wl & wr & E & _). intros H.
  rewrite E. apply in_or_app. right. apply in_or_app. left. exact H.
Qed.

(** A trimmed string followed by one space trims back to itself. *)
Lemma trim_snoc_space (l : str) : trim l = l -> trim (l ++ [space]) = l.
Proof.
  intros H. destruct (trim_clean l) as [S E]. rewrite H in S, E.
  destruct l as [|c l]; [reflexivity|].
  assert (S' : starts_ws ((c :: l) ++ [space]) = false) by exact S.
  remember (c :: l) as r eqn:Hr. clear Hr S H.
  unfold trim. rewrite (trimStart_id _ S').
  unfold trimEnd. rewrite rev_app_distr.
  change (trimStart (rev [space] ++ rev r)) with (trimStart (rev r)).
  rewrite trimStart_id by exact E. apply rev_involutive.
Qed.

End Trim.

(** ** The header of a code block *)

Section Header.

Lemma split_nonempty (s : str) (sep : char) : split s sep <> [].
Proof.
  destruct s as [|c s]; simpl; [discriminate|].
  destruct (char_eqb c sep); [discriminate|].
  destruct (split s sep); discriminate.
Qed.

Lemma split_no_sep (h : str) (sep : char) :
  ~ In sep h -> split h sep = [h].
Proof.
  induction h as [|c h IH]; intros H; [reflexivity|].
  simpl. destruct (char_eqb c sep) eqn:E.
  - apply char_eqb_eq in E. exfalso. apply H. left. exact E.
  - rewrite IH; [reflexivity|]. intros Hin. apply H. right. exact Hin.
Qed.

Lemma split_first (h c : str) (sep : char) :
  ~ In sep h -> split (h ++ sep :: c) sep = h :: split c sep.
Proof.
  induction h as [|x h IH]; intros H.
  - simpl. unfold char_eqb. rewrite N.eqb_refl. reflexivity.
  - simpl. destruct (char_eqb x sep) eqn:E.
    + apply char_eqb_eq in E. exfalso. apply H. left. exact E.
    + rewrite IH; [reflexivity|]. intros Hin. apply H. right. exact Hin.
Qed.

Lemma join_cons (sep x : str) (a : list str) :
  a <> [] -> join sep (x :: a) = x ++ sep ++ join sep a.
Proof. destruct a; [congruence|reflexivity]. Qed.

Lemma join_split (s : str) (sep : char) : join [sep] (split s sep) = s.
Proof.
  induction s as [|c s IH]; [reflexivity|].
  simpl split. destruct (char_eqb c sep) eqn:E.
  - apply char_eqb_eq in E. subst c.
    rewrite join_cons by apply split_nonempty. rewrite IH. reflexivity.
  - pose proof (split_nonempty s sep) as N.
    destruct (split s sep) as [|l ls]; [congruence|].
    destruct ls as [|l' ls].
    + simpl in *. congruence.
    + rewrite join_cons by discriminate.
      rewrite join_cons in IH by discriminate.
      rewrite <- IH. reflexivity.
Qed.

(** A string has a first newline, or none. *)
Lemma first_newline (s : str) :
  (exists h c, s = h ++ nl :: c /\ ~ In nl h) \/ ~ In nl s.
Proof.
  induction s as [|x s IH]; [right; simpl; tauto|].
  destruct (N.eq_dec x nl) as [->|Hx].
  - left. exists [], s. simpl. tauto.
  - destruct IH as [(h & c & -> & Hh)|Hs].
    + left. exists (x :: h), c. split; [reflexivity|].
      simpl. intros [E|E]; [congruence|tauto].
    + right. simpl. intros [E|E]; [congruence|tauto].
Qed.

Lemma or_empty_Some (h : str) : or_empty (Some h) = h.
Proof. destruct h; reflexivity. Qed.

Lemma parseCodeBlock_newline (h c : str) :
  ~ In nl h ->
  parseCodeBlock (h ++ nl :: c)
  = Code (header_language h) (includes h marker) c.
Proof.
  intros H. unfold parseCodeBlock, header_language.
  rewrite (split_first _ _ _ H). simpl shift. cbv beta iota zeta.
  rewrite or_empty_Some, join_split. reflexivity.
Qed.

Lemma parseCodeBlock_one_line (h : str) :
  ~ In nl h ->
  parseCodeBlock h = Code (header_language h) (includes h marker) [].
Proof.
  intros H. unfold parseCodeBlock, header_language.
  rewrite (split_no_sep _ _ H). simpl shift. cbv beta iota zeta.
  rewrite or_empty_Some. reflexivity.
Qed.

Lemma replace_In (s pat : str) (x : char) :
  In x (replace s pat []) -> In x s.
Proof.
  unfold replace. destruct (find pat s) as [k|]; [|auto].
  simpl. intros H. apply in_app_or in H.
  destruct H as [H|H].
  - rewrite <- (firstn_skipn k s). apply in_or_app. left. exact H.
  - rewrite <- (firstn_skipn (k + length pat) s). apply in_or_app.
    right. exact H.
Qed.

Lemma header_language_In (h : str) (x : char) :
  In x (header_language h) -> In x h.
Proof.
  unfold header_language. intros H. apply trim_In in H.
  destruct (includes h marker); [|exact H].
  apply trim_In, replace_In in H. exact H.
Qed.

Lemma header_language_trimmed (h : str) :
  trim (header_language h) = header_language h.
Proof. apply trim_trim. Qed.

Lemma includes_true (s pat : str) :
  includes s pat = true <-> exists k, find pat s = Some k.
Proof.
  unfold includes. destruct (find pat s) as [k|].
  - split; [eauto|reflexivity].
  - split; [discriminate|]. intros [k H]. discriminate.
Qed.

Lemma includes_false (s pat : str) :
  includes s pat = false <-> find pat s = None.
Proof.
  unfold includes. destruct (find pat s); split; congruence.
Qed.

(** The header that [buildRawText] writes for a language that is trimmed
    and holds no marker reads back as that language and flag. *)
Lemma header_roundtrip (l : str) (ro : bool) :
  trim l = l -> find marker l = None ->
  header_language (l ++ roMarker ro) = l
  /\ includes (l ++ roMarker ro) marker = ro.
Proof.
  intros Ht Hm. unfold header_language. destruct ro; simpl roMarker.
  - assert (F : find marker (l ++ space :: marker) = Some (S (length l + 0))).
    { rewrite find_sep; [reflexivity|exact Hm|].
      unfold marker, space. simpl. intuition discriminate. }
    assert (I : includes (l ++ space :: marker) marker = true)
      by (apply includes_true; eauto).
    rewrite I. split; [|reflexivity].
    unfold replace. rewrite F.
    replace (S (length l + 0)) with (length (l ++ [space]))
      by (rewrite length_app; simpl; lia).
    replace (l ++ space :: marker) with ((l ++ [space]) ++ marker)
      by (rewrite <- app_assoc; reflexivity).
    rewrite firstn_app, firstn_all, Nat.sub_diag.
    rewrite skipn_app, skipn_all2 by lia.
    replace (length (l ++ [space]) + length marker - length (l ++ [space]))
      with (length marker) by lia.
    rewrite skipn_all. simpl. rewrite !app_nil_r.
    rewrite (trim_snoc_space _ Ht). exact Ht.
  - rewrite app_nil_r. apply includes_false in Hm. rewrite Hm. auto.
Qed.

Lemma roMarker_no_newline (l : str) (ro : bool) :
  ~ In nl l -> ~ In nl (l ++ roMarker ro).
Proof.
  intros H Hin. apply in_app_or in Hin. destruct Hin as [Hin|Hin]; [tauto|].
  destruct ro; simpl in Hin; unfold nl, space in Hin;
    intuition discriminate.
Qed.

Lemma parseCodeBlock_render (l c : str) (ro : bool) :
  trim l = l -> ~ In nl l -> find marker l = None ->
  parseCodeBlock (l ++ roMarker ro ++ [nl] ++ c) = Code l ro c.
Proof.
  intros Ht Hn Hm.
  replace (l ++ roMarker ro ++ [nl] ++ c) with ((l ++ roMarker ro) ++ nl :: c)
    by (rewrite <- app_assoc; reflexivity).
  rewrite parseCodeBlock_newline by (apply roMarker_no_newline, Hn).
  destruct (header_roundtrip l ro Ht Hm) as [-> ->]. reflexivity.
Qed.

(** What [parseCodeBlock] returns, in terms of the first line of the body. *)
Lemma parseCodeBlock_shape (b : str) :
  exists h c,
    parseCodeBlock b = Code (header_language h) (includes h marker) c
    /\ ~ In nl h
    /\ (b = h ++ nl :: c \/ (b = h /\ c = [])).
Proof.
  destruct (first_newline b) as [(h & c & -> & Hh)|Hb].
  - exists h, c. rewrite parseCodeBlock_newline by exact Hh. auto.
  - exists b, []. rewrite parseCodeBlock_one_line by exact Hb. auto.
Qed.

End Header.

(** ** Properties of the decoder *)

Section Decoder.

Lemma includes_spec (s pat : str) :
  includes s pat = true <-> exists a b, s = a ++ pat ++ b.
Proof.
  rewrite includes_true. split.
  - intros [k H]. apply find_Some_split in H. eauto.
  - intros (a & b & ->). destruct (find_exists pat a b) as (k & H & _). eauto.
Qed.

Lemma skipn_at (s pre r : str) (n : nat) :
  s = pre ++ r -> length pre = n -> skipn n s = r.
Proof. apply slice_from_at. Qed.

Lemma find_None_starts (pat s : str) :
  find pat s = None -> starts_with pat s = false.
Proof.
  destruct s; simpl; destruct (starts_with pat _); congruence.
Qed.

Lemma find_None_skipn (pat s : str) (p : nat) :
  find pat s = None -> starts_with pat (skipn p s) = false.
Proof.
  intros H. rewrite <- (firstn_skipn p s) in H.
  apply find_None_app in H. apply find_None_starts. tauto.
Qed.

Lemma find_first (pat s : str) (k j : nat) :
  find pat s = Some k -> j < k -> starts_with pat (skipn j s) = false.
Proof.
  revert k j; induction s as [|c s IH]; intros k j.
  - simpl. destruct (starts_with pat []); [|discriminate].
    intros [= <-]. lia.
  - rewrite find_cons. destruct (starts_with pat (c :: s)) eqn:E.
    + intros [= <-]. lia.
    + destruct (find pat s) as [i|] eqn:F; [|discriminate].
      intros [= <-] Hj. destruct j as [|j]; [exact E|].
      simpl. apply (IH i); [reflexivity|lia].
Qed.

Lemma find_end_None (pat t : str) :
  pat <> [] -> find pat (t ++ pat) = Some (length t) -> find pat t = None.
Proof.
  intros Hp H. destruct (find pat t) as [k|] eqn:E; [|reflexivity].
  pose proof (find_Some_bound _ _ _ E) as B.
  rewrite (find_app_l _ _ pat _ E) in H. injection H as ->.
  destruct pat; [congruence|]. simpl in B. lia.
Qed.

Lemma opener_end_None (t : str) :
  find opener (t ++ opener) = Some (length t) -> find opener t = None.
Proof. apply find_end_None. discriminate. Qed.

Lemma Parse_text_seg (t : str) : find opener t = None -> Parse t (text_seg t).
Proof.
  intros H. destruct t as [|c t]; [constructor|].
  apply Parse_text; [discriminate|exact H].
Qed.

Lemma parseCodeBlock_is_code (b : str) : is_text (parseCodeBlock b) = false.
Proof.
  destruct (parseCodeBlock_shape b) as (h & c & -> & _). reflexivity.
Qed.

Lemma Parse_texts (s : str) (d : list Segment) :
  Parse s d ->
  (forall t, In (Text t) d -> t <> [] /\ includes t opener = false)
  /\ no_adjacent_text d = true.
Proof.
  induction 1 as [|t Ht Ho|t b Ho Hc|t b rest d Ho Hc HP [IH1 IH2]].
  - split; [intros t []|reflexivity].
  - split; [|reflexivity]. intros x [[= <-]|[]].
    split; [exact Ht|]. apply includes_false, Ho.
  - pose proof (parseCodeBlock_is_code b) as Hb.
    apply opener_end_None in Ho.
    destruct (parseCodeBlock b) as [|l ro c]; [discriminate|].
    destruct t as [|x t]; simpl; (split; [|reflexivity]).
    + intros y [[=]|[]].
    + intros y [[= <-]|[[=]|[]]]. split; [discriminate|].
      apply includes_false, Ho.
  - pose proof (parseCodeBlock_is_code b) as Hb.
    apply opener_end_None in Ho.
    destruct (parseCodeBlock b) as [|l ro c]; [discriminate|].
    destruct t as [|x t]; simpl; (split; [|exact IH2]).
    + intros y [[=]|Hy]. apply IH1, Hy.
    + intros y [[= <-]|[[=]|Hy]]; [|apply IH1, Hy].
      split; [discriminate|]. apply includes_false, Ho.
Qed.

(** No opening delimiter that overlaps or precedes a closing delimiter is
    unmatched. *)
Lemma unmatched_after_closer (a rest : str) (p : nat) :
  unmatched_open (a ++ closer ++ rest) p = true -> length a + 3 <= p.
Proof.
  unfold unmatched_open. rewrite andb_true_iff, negb_true_iff.
  intros [Hs Hi].
  destruct (Nat.le_gt_cases (p + 3) (length a)) as [L|L].
  - exfalso. rewrite skipn_app in Hi.
    replace (p + 3 - length a) with 0 in Hi by lia. rewrite skipn_O in Hi.
    apply includes_false in Hi.
    destruct (find_exists closer (skipn (p + 3) a) rest) as (k & F & _).
    congruence.
  - destruct (Nat.le_gt_cases p (length a)) as [M|M].
    + exfalso. rewrite skipn_app in Hs.
      replace (p - length a) with 0 in Hs by lia. rewrite skipn_O in Hs.
      assert (B : length (skipn p a) < 3) by (rewrite length_skipn; lia).
      destruct (skipn p a) as [|x [|y [|z w]]]; simpl in B; try lia;
        simpl in Hs; rewrite ?andb_false_r in Hs; discriminate.
    + destruct (Nat.le_gt_cases (length a + 3) p) as [K|K]; [exact K|].
      exfalso. rewrite skipn_app, skipn_all2 in Hs by lia.
      assert (C : p - length a = 1 \/ p - length a = 2) by lia.
      destruct C as [C|C]; rewrite C in Hs; simpl in Hs; discriminate.
Qed.

Lemma unmatched_shift (a rest : str) (j : nat) :
  unmatched_open (a ++ rest) (length a + j) = unmatched_open rest j.
Proof.
  unfold unmatched_open.
  rewrite !skipn_app, 2!(@skipn_all2 _ _ a) by lia. simpl app.
  replace (length a + j - length a) with j by lia.
  replace (length a + j + 3 - length a) with (j + 3) by lia.
  reflexivity.
Qed.

Lemma Parse_unmatched (s : str) (d : list Segment) :
  Parse s d ->
  forall p, unmatched_open s p = true ->
  exists q pre,
    q <= p /\ unmatched_open s q = true
    /\ (forall j, j < q -> unmatched_open s j = false)
    /\ Parse (firstn q s) pre
    /\ d = pre ++ [parseCodeBlock (skipn (q + 3) s)].
Proof.
  induction 1 as [|t Ht Ho|t b Ho Hc|t b rest d Ho Hc HP IH]; intros p Hp.
  - unfold unmatched_open in Hp. rewrite skipn_nil in Hp. discriminate.
  - unfold unmatched_open in Hp. rewrite (find_None_skipn _ _ _ Ho) in Hp.
    discriminate.
  - pose proof (find_at_end _ _ b Ho) as F.
    assert (U : forall j, j < length t ->
                unmatched_open (t ++ opener ++ b) j = false).
    { intros j Hj. unfold unmatched_open.
      rewrite (find_first _ _ _ _ F Hj). reflexivity. }
    assert (S3 : skipn (length t + 3) (t ++ opener ++ b) = b).
    { apply (skipn_at _ (t ++ opener) b).
      - rewrite <- app_assoc. reflexivity.
      - rewrite length_app. reflexivity. }
    exists (length t), (text_seg t). repeat split.
    + destruct (Nat.le_gt_cases (length t) p) as [L|L]; [exact L|].
      rewrite (U p L) in Hp. discriminate.
    + unfold unmatched_open.
      rewrite (skipn_at _ t (opener ++ b) _ eq_refl eq_refl).
      rewrite starts_with_app, S3.
      apply includes_false in Hc. rewrite Hc. reflexivity.
    + exact U.
    + rewrite firstn_app, firstn_all, Nat.sub_diag. simpl.
      rewrite app_nil_r. apply Parse_text_seg, opener_end_None, Ho.
    + rewrite S3. reflexivity.
  - set (a := t ++ opener ++ b ++ closer).
    assert (Es : t ++ opener ++ b ++ closer ++ rest = a ++ rest)
      by (unfold a; rewrite <- !app_assoc; reflexivity).
    assert (Ec : t ++ opener ++ b ++ closer ++ rest
                 = (t ++ opener ++ b) ++ closer ++ rest)
      by (rewrite <- !app_assoc; reflexivity).
    assert (La : length a = length (t ++ opener ++ b) + 3)
      by (unfold a; rewrite !length_app; simpl; lia).
    assert (A : forall j, unmatched_open (a ++ rest) j = true ->
                length a <= j).
    { intros j Hj. rewrite <- Es, Ec in Hj.
      apply unmatched_after_closer in Hj. lia. }
    rewrite Es in *.
    pose proof (A p Hp) as Lp.
    replace p with (length a + (p - length a)) in Hp by lia.
    rewrite unmatched_shift in Hp.
    destruct (IH _ Hp) as (q & pre & Hq & Uq & Mq & Pq & ->).
    exists (length a + q), (text_seg t ++ parseCodeBlock b :: pre).
    repeat split.
    + lia.
    + rewrite unmatched_shift. exact Uq.
    + intros j Hj. destruct (unmatched_open (a ++ rest) j) eqn:E;
        [|reflexivity].
      pose proof (A j E) as Lj.
      replace j with (length a + (j - length a)) in E by lia.
      rewrite unmatched_shift, Mq in E by lia. discriminate.
    + rewrite firstn_app, firstn_all2 by lia.
      replace (length a + q - length a) with q by lia.
      unfold a. rewrite <- !app_assoc. apply Parse_block; assumption.
    + rewrite skipn_app, (@skipn_all2 _ _ a) by lia.
      replace (length a + q + 3 - length a) with (q + 3) by lia.
      simpl app.
      rewrite <- app_assoc. reflexivity.
Qed.

(** C3. [parseSegments] returns on every raw text: the loop ends within as
    many runs of its body as the text has characters, more runs allowed
    change nothing, and the result is the reading [Parse] gives, which
    covers the empty text, text with no delimiter, a block that is never
    closed and a body with no newline.  No operation of the loop or of
    [parseCodeBlock] can fail on a string. *)
Theorem parseSegments_total (rawText : str) :
  exists segs,
    parseSegments rawText = Some segs
    /\ Parse rawText segs
    /\ forall extra,
         while (length rawText + extra) rawText (mkState 0 []) = Some segs.
Proof.
  destruct (Parse_total rawText) as [d Hd]. exists d.
  split; [apply Parse_parseSegments, Hd|]. split; [exact Hd|].
  intros extra. apply (Parse_while _ _ Hd [] []). lia.
Qed.

(** C7. A raw text with no opening delimiter decodes to one text segment
    holding all of it, and to no segment when it is empty. *)
Theorem no_opener_one_text (s : str) :
  includes s opener = false ->
  parseSegments s = Some match s with
                         | [] => []
                         | _ :: _ => [Text s]
                         end.
Proof.
  intros H. apply includes_false in H.
  apply Parse_parseSegments. apply (Parse_text_seg _ H).
Qed.

Lemma no_opener_one_text_witness :
  includes (lit "no delimiters here") opener = false
  /\ parseSegments (lit "no delimiters here")
     = Some [Text (lit "no delimiters here")].
Proof.
  split; [reflexivity|].
  apply (no_opener_one_text (lit "no delimiters here")). reflexivity.
Defined.

(** C9. Every text segment that [parseSegments] returns is non-empty and
    holds no opening delimiter, and no two text segments are adjacent. *)
Theorem text_segments_invariant (s : str) (d : list Segment) :
  parseSegments s = Some d ->
  (forall t, In (Text t) d -> t <> [] /\ includes t opener = false)
  /\ no_adjacent_text d = true.
Proof. intros H. apply (Parse_texts s), parseSegments_Parse, H. Qed.

Lemma text_segments_invariant_witness :
  (forall t,
      In (Text t) [Text (lit "abc"); Code (lit "python") false (lit "print(1)");
                   Text (lit "def")] ->
      t <> [] /\ includes t opener = false)
  /\ no_adjacent_text
       [Text (lit "abc"); Code (lit "python") false (lit "print(1)");
        Text (lit "def")] = true.
Proof.
  apply (text_segments_invariant
           (lit "abc{{{python" ++ nl :: lit "print(1)}}}def")).
  reflexivity.
Defined.

(** C6. When some opening delimiter has no closing delimiter after it, the
    first such delimiter, at [q], starts the last segment: the result is
    the decoding of the text before [q] followed by the code segment that
    [parseCodeBlock] makes of all that follows the delimiter, and nothing
    comes after that segment.  The raw text "{{{unterminated" gives one code
    segment with empty content. *)
Theorem unterminated_block (s : str) (p : nat) :
  unmatched_open s p = true ->
  (exists q pre,
      q <= p /\ unmatched_open s q = true
      /\ (forall j, j < q -> unmatched_open s j = false)
      /\ parseSegments (firstn q s) = Some pre
      /\ parseSegments s = Some (pre ++ [parseCodeBlock (skipn (q + 3) s)])
      /\ is_text (parseCodeBlock (skipn (q + 3) s)) = false)
  /\ parseSegments (lit "{{{unterminated")
     = Some [Code (lit "unterminated") false []].
Proof.
  intros H. split; [|reflexivity].
  destruct (Parse_total s) as [d Hd].
  destruct (Parse_unmatched _ _ Hd _ H) as (q & pre & Hq & Uq & Mq & Pq & ->).
  exists q, pre. repeat split; try assumption.
  - apply Parse_parseSegments, Pq.
  - apply Parse_parseSegments, Hd.
  - apply parseCodeBlock_is_code.
Qed.

Lemma unterminated_block_witness :
  unmatched_open (lit "ab{{{x}}}cd{{{py" ++ nl :: lit "more{{{") 21 = true
  /\ exists q pre,
      q <= 21
      /\ parseSegments
           (firstn q (lit "ab{{{x}}}cd{{{py" ++ nl :: lit "more{{{"))
         = Some pre
      /\ parseSegments (lit "ab{{{x}}}cd{{{py" ++ nl :: lit "more{{{")
         = Some (pre ++ [parseCodeBlock
                           (skipn (q + 3)
                              (lit "ab{{{x}}}cd{{{py" ++ nl :: lit "more{{{"))]).
Proof.
  split; [reflexivity|].
  destruct (unterminated_block
              (lit "ab{{{x}}}cd{{{py" ++ nl :: lit "more{{{") 21 eq_refl)
    as [(q & pre & Hq & _ & _ & H1 & H2 & _) _].
  exists q, pre. auto.
Defined.

End Decoder.

(** ** The header rule and the encoder *)

Section HeaderRule.

Lemma trim_trimmed_of (s : str) : trimmed_of s (trim s).
Proof.
  destruct (trim_decomp s) as (wl & wr & E & Wl & Wr).
  destruct (trim_clean s) as [S T].
  exists wl, wr. auto.
Qed.

(** C4. [parseCodeBlock] cuts the body at its first newline into a header
    line and the content, which it keeps as it is; with no newline the whole
    body is the header line and the content is empty.  The segment is
    read-only exactly when the header line holds the marker; then the
    leftmost occurrence of the marker, and only it, is taken out of the
    header line.  The language is what is left of the header line, without
    the white space around it. *)
Theorem parseCodeBlock_header_rule (body : str) :
  exists header content language readOnly,
    parseCodeBlock body = Code language readOnly content
    /\ ~ In nl header
    /\ (body = header ++ nl :: content
        \/ (body = header /\ content = []))
    /\ (readOnly = true <-> exists a b, header = a ++ marker ++ b)
    /\ (readOnly = true ->
        exists a b, header = a ++ marker ++ b
                    /\ find marker header = Some (length a)
                    /\ language = trim (a ++ b)
                    /\ trimmed_of (a ++ b) language)
    /\ (readOnly = false ->
        language = trim header /\ trimmed_of header language).
Proof.
  destruct (parseCodeBlock_shape body) as (h & c & E & Hn & Hb).
  exists h, c, (header_language h), (includes h marker).
  split; [exact E|]. split; [exact Hn|]. split; [exact Hb|].
  split; [apply includes_spec|]. unfold header_language, replace. split.
  - intros I. rewrite I. apply includes_true in I. destruct I as [k F].
    rewrite F. exists (firstn k h), (skipn (k + length marker) h).
    pose proof (find_Some_bound _ _ _ F) as B.
    assert (L : length (firstn k h) = k) by (rewrite length_firstn; lia).
    split; [apply find_Some_split, F|]. rewrite L. split; [reflexivity|].
    simpl app. rewrite trim_trim. split; [reflexivity|].
    apply trim_trimmed_of.
  - intros I. rewrite I. split; [reflexivity|]. apply trim_trimmed_of.
Qed.

Lemma join_nil_concat (a : list str) : join [] a = concat a.
Proof.
  induction a as [|x a IH]; [reflexivity|].
  simpl concat. rewrite <- IH. destruct a; [|reflexivity].
  simpl. symmetry. apply app_nil_r.
Qed.

Lemma buildRawText_concat (segs : list Segment) :
  buildRawText segs = concat (List.map render segs).
Proof. apply join_nil_concat. Qed.

Lemma buildRawText_cons (seg : Segment) (segs : list Segment) :
  buildRawText (seg :: segs) = render seg ++ buildRawText segs.
Proof. rewrite !buildRawText_concat. reflexivity. Qed.

Lemma buildRawText_app (d1 d2 : list Segment) :
  buildRawText (d1 ++ d2) = buildRawText d1 ++ buildRawText d2.
Proof.
  rewrite !buildRawText_concat, map_app, concat_app. reflexivity.
Qed.

Lemma buildRawText_text_seg (t : str) : buildRawText (text_seg t) = t.
Proof. destruct t; reflexivity. Qed.

(** C5. [buildRawText] is the concatenation, in order and with nothing in
    between, of the renderings of the segments as the specification words
    them; the read-only code segment "js" / "let x;" gives
    "{{{js [readonly]", a newline and "let x;}}}". *)
Theorem buildRawText_renders (segs : list Segment) :
  buildRawText segs = concat (List.map render_spec segs)
  /\ buildRawText [Code (lit "js") true (lit "let x;")]
     = lit "{{{js [readonly]" ++ nl :: lit "let x;}}}".
Proof.
  split; [|reflexivity].
  rewrite buildRawText_concat. apply (f_equal (@concat char)), map_ext.
  intros [c|l [|] c]; reflexivity.
Qed.

(** C10. On segments none of which is read-only, the encoder of
    [parseSegments.js] and the encoder of [Editor.jsx] give the same raw
    text. *)
Theorem encoders_agree (segs : list Segment) :
  forallb writable segs = true ->
  ParseSegmentsJs.buildRawText segs = buildRawText segs.
Proof.
  intros H. unfold ParseSegmentsJs.buildRawText, buildRawText. f_equal.
  apply map_ext_in. intros seg Hin.
  rewrite forallb_forall in H. specialize (H seg Hin).
  destruct seg as [c|l ro c]; [reflexivity|].
  simpl in H. apply negb_true_iff in H. subst ro.
  unfold ParseSegmentsJs.render, render, roMarker.
  destruct l as [|x l]; [reflexivity|].
  simpl ParseSegmentsJs.truthy. cbv iota.
  rewrite <- (app_assoc (x :: l)). reflexivity.
Qed.

Lemma encoders_agree_witness :
  forallb writable
    [Text (lit "abc"); Code [] false (lit "x"); Code (lit "js") false []] = true
  /\ ParseSegmentsJs.buildRawText
       [Text (lit "abc"); Code [] false (lit "x"); Code (lit "js") false []]
     = buildRawText
         [Text (lit "abc"); Code [] false (lit "x"); Code (lit "js") false []].
Proof.
  split; [reflexivity|].
  apply (encoders_agree
           [Text (lit "abc"); Code [] false (lit "x");
            Code (lit "js") false []]).
  reflexivity.
Defined.

End HeaderRule.

(** ** Round trips *)

Section RoundTrip.

Lemma ends_with_cons (x c : char) (s : str) :
  s <> [] -> ends_with x (c :: s) = ends_with x s.
Proof.
  intros H. unfold ends_with. simpl rev.
  destruct (rev s) as [|y r] eqn:E; [|reflexivity].
  apply (f_equal (@rev char)) in E. rewrite rev_involutive in E.
  simpl in E. congruence.
Qed.

(** A string with no run of three [x] that does not end with [x], followed
    by three [x]: the run found first is the one added. *)
Lemma find_triple_end (x : char) (s : str) :
  find [x; x; x] s = None -> ends_with x s = false ->
  find [x; x; x] (s ++ [x; x; x]) = Some (length s).
Proof.
  induction s as [|c s IH]; intros F E.
  - simpl. unfold char_eqb. rewrite N.eqb_refl. reflexivity.
  - rewrite find_cons in F.
    destruct (starts_with [x; x; x] (c :: s)) eqn:S; [discriminate|].
    destruct (find [x; x; x] s) eqn:F'; [discriminate|].
    rewrite <- app_comm_cons, find_cons.
    assert (S' : starts_with [x; x; x] (c :: s ++ [x; x; x]) = false).
    { destruct s as [|y [|z s]].
      - unfold ends_with in E. simpl in E. simpl. rewrite N.eqb_sym in E.
        unfold char_eqb in *. rewrite E. reflexivity.
      - unfold ends_with in E. simpl in E. simpl. rewrite N.eqb_sym in E.
        unfold char_eqb in *. rewrite E. apply andb_false_r.
      - rewrite app_comm_cons, starts_with_app_long by (simpl; lia).
        exact S. }
    rewrite S'. destruct s as [|y s].
    + simpl. unfold char_eqb. rewrite N.eqb_refl. reflexivity.
    + rewrite ends_with_cons in E by discriminate.
      rewrite (IH eq_refl E). reflexivity.
Qed.

Lemma closer_end (c : str) :
  includes c closer = false -> ends_with rbrace c = false ->
  find closer (c ++ closer) = Some (length c).
Proof.
  intros I E. apply includes_false in I. apply (find_triple_end rbrace); auto.
Qed.

Lemma opener_end (t : str) :
  includes t opener = false -> ends_with lbrace t = false ->
  find opener (t ++ opener) = Some (length t).
Proof.
  intros I E. apply includes_false in I. apply (find_triple_end lbrace); auto.
Qed.

(** The closing delimiter that [buildRawText] writes after a code segment is
    the first one after the opening delimiter. *)
Lemma body_closer (l c : str) (ro : bool) :
  find closer l = None ->
  find closer (c ++ closer) = Some (length c) ->
  find closer ((l ++ roMarker ro ++ [nl] ++ c) ++ closer)
  = Some (length (l ++ roMarker ro ++ [nl] ++ c)).
Proof.
  intros Hl Hc.
  assert (N : forall r, find closer (r ++ nl :: c ++ closer)
                        = option_map (fun k => S (length r + k))
                            (find closer (c ++ closer)) ->
              find closer (r ++ nl :: c ++ closer)
              = Some (length (r ++ nl :: c))).
  { intros r ->. rewrite Hc. simpl option_map. f_equal.
    rewrite length_app. simpl. lia. }
  destruct ro; simpl roMarker.
  - replace ((l ++ (space :: marker) ++ [nl] ++ c) ++ closer)
      with (l ++ space :: (marker ++ nl :: c ++ closer))
      by (rewrite <- !app_assoc; reflexivity).
    rewrite find_sep;
      [|exact Hl|unfold closer, space; simpl; intuition discriminate].
    rewrite (N marker).
    + simpl option_map. f_equal. rewrite !length_app. simpl. lia.
    + apply find_sep; [reflexivity|].
      unfold closer, nl; simpl; intuition discriminate.
  - replace ((l ++ [] ++ [nl] ++ c) ++ closer) with (l ++ nl :: c ++ closer)
      by (rewrite <- !app_assoc; reflexivity).
    simpl app at 3. apply N, find_sep; [exact Hl|].
    unfold closer, nl; simpl; intuition discriminate.
Qed.

Lemma existsb_nl_false (s : str) :
  existsb (char_eqb nl) s = false -> ~ In nl s.
Proof.
  intros H Hin. assert (T : existsb (char_eqb nl) s = true).
  { apply existsb_exists. exists nl. split; [exact Hin|apply N.eqb_refl]. }
  congruence.
Qed.

(** The conditions of [canonical_code], one by one. *)
Lemma canonical_code_spec (l c : str) :
  canonical_code l c = true ->
  trim l = l /\ ~ In nl l /\ find marker l = None /\ find closer l = None
  /\ find closer (c ++ closer) = Some (length c).
Proof.
  unfold canonical_code. rewrite !andb_true_iff, !negb_true_iff.
  intros [[[[[T N] M] C] I] E].
  split; [apply str_eqb_eq, T|]. split; [apply existsb_nl_false, N|].
  split; [apply includes_false, M|]. split; [apply includes_false, C|].
  apply closer_end; assumption.
Qed.

(** One block of a raw text written by [buildRawText], read back. *)
Lemma Parse_rendered (t l c rest : str) (ro : bool) (d : list Segment) :
  find opener (t ++ opener) = Some (length t) ->
  trim l = l -> ~ In nl l -> find marker l = None -> find closer l = None ->
  find closer (c ++ closer) = Some (length c) ->
  Parse rest d ->
  Parse (t ++ render (Code l ro c) ++ rest) (text_seg t ++ Code l ro c :: d).
Proof.
  intros Ho Ht Hn Hm Hl Hc HP.
  pose proof (Parse_block t (l ++ roMarker ro ++ [nl] ++ c) rest d Ho
                (body_closer l c ro Hl Hc) HP) as P.
  rewrite (parseCodeBlock_render l c ro Ht Hn Hm) in P.
  replace (t ++ render (Code l ro c) ++ rest)
    with (t ++ opener ++ (l ++ roMarker ro ++ [nl] ++ c) ++ closer ++ rest);
    [exact P|].
  unfold render. rewrite <- !app_assoc. reflexivity.
Qed.

Lemma canonical_Parse (n : nat) (d : list Segment) :
  length d <= n -> canonical d = true -> Parse (buildRawText d) d.
Proof.
  revert d; induction n as [|n IH]; intros d Hn Hd.
  - destruct d; [constructor|simpl in Hn; lia].
  - destruct d as [|[t|l ro c] d]; [constructor| |].
    + simpl in Hd. rewrite !andb_true_iff, !negb_true_iff in Hd.
      destruct Hd as [[[Ht Ho] Hnext] Hd].
      assert (Ht' : t <> []).
      { intros ->. discriminate Ht. }
      destruct d as [|[t'|l ro c] d]; [| discriminate |].
      * rewrite buildRawText_cons. simpl. rewrite app_nil_r.
        apply Parse_text; [exact Ht'|apply includes_false, Ho].
      * apply negb_true_iff in Hnext.
        simpl in Hd. apply andb_true_iff in Hd. destruct Hd as [Hc Hd].
        destruct (canonical_code_spec _ _ Hc) as (T & N & M & C & E).
        rewrite !buildRawText_cons.
        pose proof (Parse_rendered t l c (buildRawText d) ro d) as P.
        destruct t as [|x t]; [congruence|].
        apply P; auto.
        -- apply opener_end; assumption.
        -- apply IH; [simpl in Hn; lia|exact Hd].
    + simpl in Hd. apply andb_true_iff in Hd. destruct Hd as [Hc Hd].
      destruct (canonical_code_spec _ _ Hc) as (T & N & M & C & E).
      rewrite buildRawText_cons.
      apply (Parse_rendered [] l c (buildRawText d) ro d); auto.
      apply IH; [simpl in Hn; lia|exact Hd].
Qed.

(** C1, as amended. A document whose text segments are non-empty, hold no
    opening delimiter, are not adjacent and do not end with an opening
    brace before a code segment, and whose code segments have a trimmed
    language with no newline, marker or closing delimiter and a content
    with no closing delimiter that does not end with a closing brace, is
    decoded from its encoding field for field. *)
Theorem canonical_roundtrip (d : list Segment) :
  canonical d = true -> parseSegments (buildRawText d) = Some d.
Proof.
  intros H. apply Parse_parseSegments, (canonical_Parse (length d)); auto.
Qed.

Lemma canonical_roundtrip_witness :
  canonical [Text (lit "abc"); Code (lit "python") false (lit "print(1)");
             Code [] true (lit "x=1"); Text (lit "def{")] = true
  /\ parseSegments
       (buildRawText
          [Text (lit "abc"); Code (lit "python") false (lit "print(1)");
           Code [] true (lit "x=1"); Text (lit "def{")])
     = Some [Text (lit "abc"); Code (lit "python") false (lit "print(1)");
             Code [] true (lit "x=1"); Text (lit "def{")].
Proof.
  split; [reflexivity|].
  apply (canonical_roundtrip
           [Text (lit "abc"); Code (lit "python") false (lit "print(1)");
            Code [] true (lit "x=1"); Text (lit "def{")]).
  reflexivity.
Defined.

(** C1, as stated, fails: the document with the one code segment "js" /
    "x}" is well-formed in the words of the specification, and its encoding
    decodes to a code segment with content "x" followed by the text "}". *)
Lemma wellformed_roundtrip_counterexample :
  spec_well_formed [Code (lit "js") false (lit "x}")] = true
  /\ parseSegments (buildRawText [Code (lit "js") false (lit "x}")])
     = Some [Code (lit "js") false (lit "x"); Text (lit "}")]
  /\ parseSegments (buildRawText [Code (lit "js") false (lit "x}")])
     <> Some [Code (lit "js") false (lit "x}")].
Proof. repeat split. discriminate. Qed.

(** Each condition of [canonical] is needed: a document that breaks one of
    them alone is not read back as it is. *)
Example canonical_conditions_needed :
  parseSegments (buildRawText [Text []]) = Some []
  /\ parseSegments (buildRawText [Text (lit "a"); Text (lit "b")])
     = Some [Text (lit "ab")]
  /\ parseSegments (buildRawText [Text (lit "{{{")]) = Some [Code [] false []]
  /\ parseSegments (buildRawText [Text (lit "a{"); Code (lit "js") false []])
     = Some [Text (lit "a"); Code (lit "{js") false []]
  /\ parseSegments (buildRawText [Code (lit " js") false []])
     = Some [Code (lit "js") false []]
  /\ parseSegments (buildRawText [Code (lit "a" ++ nl :: lit "b") false []])
     = Some [Code (lit "a") false (lit "b" ++ [nl])]
  /\ parseSegments (buildRawText [Code (lit "[readonly]js") false []])
     = Some [Code (lit "js") true []]
  /\ parseSegments (buildRawText [Code (lit "a}}}b") false []])
     = Some [Code (lit "a") false []; Text (lit "b" ++ nl :: lit "}}}")]
  /\ parseSegments (buildRawText [Code (lit "js") false (lit "a}}}b")])
     = Some [Code (lit "js") false (lit "a"); Text (lit "b}}}")].
Proof. repeat split. Qed.

End RoundTrip.

(** ** Encoding what was decoded *)

Section Reencode.

Lemma find_Some_starts (pat s : str) (k : nat) :
  find pat s = Some k -> starts_with pat (skipn k s) = true.
Proof.
  revert k; induction s as [|c s IH]; intros k.
  - simpl. destruct (starts_with pat []) eqn:E; [|discriminate].
    intros [= <-]. exact E.
  - rewrite find_cons. destruct (starts_with pat (c :: s)) eqn:E.
    + intros [= <-]. exact E.
    + destruct (find pat s) as [j|]; [|discriminate].
      intros [= <-]. simpl. apply IH. reflexivity.
Qed.

(** What [parseCodeBlock] returns, read from its result. *)
Lemma parseCodeBlock_facts (b l c : str) (ro : bool) :
  parseCodeBlock b = Code l ro c ->
  trim l = l /\ ~ In nl l
  /\ exists h, b = h ++ nl :: c \/ (b = h /\ c = []).
Proof.
  destruct (parseCodeBlock_shape b) as (h & c' & -> & Hn & Hb).
  intros [= <- _ <-]. split; [apply header_language_trimmed|].
  split; [|eauto]. intros Hin. apply Hn, header_language_In, Hin.
Qed.

Lemma plain_language_spec (l c : str) (ro : bool) :
  plain_language (Code l ro c) = true ->
  find marker l = None /\ find closer l = None.
Proof.
  simpl. rewrite andb_true_iff, !negb_true_iff, !includes_false. tauto.
Qed.

Lemma forallb_plain_block (t : str) (seg : Segment) (d : list Segment) :
  forallb plain_language (text_seg t ++ seg :: d) = true ->
  plain_language seg = true /\ forallb plain_language d = true.
Proof.
  rewrite forallb_app. simpl. rewrite !andb_true_iff. tauto.
Qed.

(** The content of a block that was closed in the raw text is followed at
    once by the first closing delimiter. *)
Lemma content_closer (b h c : str) :
  find closer (b ++ closer) = Some (length b) ->
  b = h ++ nl :: c \/ (b = h /\ c = []) ->
  find closer (c ++ closer) = Some (length c).
Proof.
  intros F [->| [_ ->]]; [|reflexivity].
  apply (find_drop closer (h ++ [nl]) (c ++ closer) (length c)).
  replace ((h ++ [nl]) ++ c ++ closer) with ((h ++ nl :: c) ++ closer)
    by (rewrite <- !app_assoc; reflexivity).
  rewrite F. f_equal. rewrite !length_app. simpl. lia.
Qed.

(** The content of a block that was never closed holds no closing
    delimiter; the first one after it starts within its last two
    characters or right after it. *)
Lemma content_open (b h c : str) :
  find closer b = None ->
  b = h ++ nl :: c \/ (b = h /\ c = []) ->
  exists k, find closer (c ++ closer) = Some k
            /\ k <= length c /\ length c < k + 3.
Proof.
  intros F Hb.
  assert (Fc : find closer c = None).
  { destruct Hb as [->|[_ ->]]; [|reflexivity].
    apply find_None_app in F. destruct F as [_ F].
    apply (find_None_app closer [nl] c) in F. tauto. }
  destruct (find_exists closer c []) as (k & Hk & L).
  rewrite app_nil_r in Hk. exists k. split; [exact Hk|]. split; [exact L|].
  destruct (Nat.le_gt_cases (k + 3) (length c)) as [M|M]; [|exact M].
  exfalso. pose proof (find_Some_starts _ _ _ Hk) as S.
  rewrite skipn_app in S. replace (k - length c) with 0 in S by lia.
  rewrite skipn_O, starts_with_app_long in S
    by (rewrite length_skipn; simpl; lia).
  rewrite (find_None_skipn _ _ _ Fc) in S. discriminate.
Qed.

(** The encoding of a decoded raw text decodes to a document with the same
    encoding. *)
Lemma Parse_reencode (s : str) (d : list Segment) :
  Parse s d -> forallb plain_language d = true ->
  exists d', Parse (buildRawText d) d' /\ buildRawText d' = buildRawText d.
Proof.
  induction 1 as [|t Ht Ho|t b Ho Hc|t b rest d Ho Hc HP IH]; intros Hpl.
  - exists []. split; [constructor|reflexivity].
  - exists [Text t]. split; [|reflexivity].
    simpl. apply Parse_text; assumption.
  - destruct (parseCodeBlock b) as [x|l ro c] eqn:E.
    { pose proof (parseCodeBlock_is_code b) as Hb. rewrite E in Hb.
      discriminate. }
    destruct (parseCodeBlock_facts _ _ _ _ E) as (T & N & h & Hb).
    apply forallb_plain_block in Hpl. destruct Hpl as [Hpl _].
    destruct (plain_language_spec _ _ _ Hpl) as [M C].
    destruct (content_open _ _ _ Hc Hb) as (k & Fk & L1 & L2).
    pose proof (find_Some_split _ _ _ Fk) as Ec.
    pose proof (find_Some_prefix _ _ _ Fk) as Fp.
    assert (F0 : firstn k (c ++ closer) = firstn k c).
    { rewrite firstn_app. replace (k - length c) with 0 by lia.
      simpl. apply app_nil_r. }
    rewrite F0 in Ec, Fp.
    set (c0 := firstn k c) in *.
    set (r := skipn (k + length closer) (c ++ closer)) in *.
    assert (Lr : length r < 3).
    { unfold r. rewrite length_skipn, length_app. simpl. lia. }
    assert (Pr : Parse r (text_seg r)).
    { apply Parse_text_seg, find_short. simpl. exact Lr. }
    exists (text_seg t ++ Code l ro c0 :: text_seg r).
    assert (R : buildRawText (text_seg t ++ Code l ro c0 :: text_seg r)
                = buildRawText (text_seg t ++ [Code l ro c])).
    { rewrite !buildRawText_app, !buildRawText_cons, !buildRawText_text_seg.
      change (buildRawText []) with (@nil char). rewrite app_nil_r.
      f_equal. unfold render. rewrite <- !app_assoc. do 4 f_equal.
      symmetry. exact Ec. }
    split; [|exact R]. rewrite <- R.
    rewrite buildRawText_app, buildRawText_cons, !buildRawText_text_seg.
    apply Parse_rendered; assumption.
  - destruct (parseCodeBlock b) as [x|l ro c] eqn:E.
    { pose proof (parseCodeBlock_is_code b) as Hb. rewrite E in Hb.
      discriminate. }
    destruct (parseCodeBlock_facts _ _ _ _ E) as (T & N & h & Hb).
    apply forallb_plain_block in Hpl. destruct Hpl as [Hpl Hd].
    destruct (plain_language_spec _ _ _ Hpl) as [M C].
    pose proof (content_closer _ _ _ Hc Hb) as Fc.
    destruct (IH Hd) as (d' & Pd' & Ed').
    exists (text_seg t ++ Code l ro c :: d').
    assert (R : buildRawText (text_seg t ++ Code l ro c :: d')
                = buildRawText (text_seg t ++ Code l ro c :: d)).
    { rewrite !buildRawText_app, !buildRawText_cons, Ed'. reflexivity. }
    split; [|exact R].
    rewrite buildRawText_app, buildRawText_cons, buildRawText_text_seg.
    apply Parse_rendered; assumption.
Qed.

(** C2, as amended. When no language of the decoded document holds the
    marker or a closing delimiter, encoding the decoded document gives a raw
    text that decoding and encoding leave as it is. *)
Theorem reencode_fixpoint (s : str) (d : list Segment) :
  parseSegments s = Some d ->
  forallb plain_language d = true ->
  reencode s = Some (buildRawText d)
  /\ reencode (buildRawText d) = Some (buildRawText d).
Proof.
  intros H Hpl. unfold reencode. rewrite H. split; [reflexivity|].
  apply parseSegments_Parse in H.
  destruct (Parse_reencode _ _ H Hpl) as (d' & P & E).
  rewrite (Parse_parseSegments _ _ P). simpl. rewrite E. reflexivity.
Qed.

Lemma reencode_fixpoint_witness :
  parseSegments (lit "a{{{ py [readonly] " ++ nl :: lit "x}}}b{{{js" ++ nl :: lit "y}}")
  = Some [Text (lit "a"); Code (lit "py") true (lit "x"); Text (lit "b");
          Code (lit "js") false (lit "y}}")]
  /\ reencode (lit "a{{{py [readonly]" ++ nl :: lit "x}}}b{{{js" ++ nl :: lit "y}}}}}")
     = Some (lit "a{{{py [readonly]" ++ nl :: lit "x}}}b{{{js" ++ nl :: lit "y}}}}}").
Proof.
  split; [reflexivity|].
  apply (reencode_fixpoint
           (lit "a{{{ py [readonly] " ++ nl :: lit "x}}}b{{{js" ++ nl :: lit "y}}")
           [Text (lit "a"); Code (lit "py") true (lit "x"); Text (lit "b");
            Code (lit "js") false (lit "y}}")]);
    reflexivity.
Defined.

(** C2, as stated, fails: a header line with the marker twice decodes to a
    language that still holds the marker, and every further round trip
    changes the raw text. *)
Lemma reencode_counterexample :
  reencode (lit "{{{[readonly]x[readonly]}}}")
  = Some (lit "{{{x[readonly] [readonly]" ++ nl :: lit "}}}")
  /\ reencode (lit "{{{x[readonly] [readonly]" ++ nl :: lit "}}}")
     = Some (lit "{{{x [readonly] [readonly]" ++ nl :: lit "}}}")
  /\ lit "{{{x [readonly] [readonly]" ++ nl :: lit "}}}"
     <> lit "{{{x[readonly] [readonly]" ++ nl :: lit "}}}".
Proof. repeat split. discriminate. Qed.

(** Taking the marker out of the header line can also leave a closing
    delimiter in the language, with the same effect. *)
Example reencode_closer_in_language :
  reencode (lit "{{{}}[readonly]}x}}}")
  = Some (lit "{{{}}}x [readonly]" ++ nl :: lit "}}}")
  /\ reencode (lit "{{{}}}x [readonly]" ++ nl :: lit "}}}")
     = Some (lit "{{{" ++ nl :: lit "}}}x [readonly]" ++ nl :: lit "}}}").
Proof. split; reflexivity. Qed.

End Reencode.

(** ** Editing the content of one segment *)

Section Editing.

Import Store.

Lemma nth_error_write_same (h : heap) (r : ref) (x : Segment) :
  r < length h -> nth_error (write h r x) r = Some x.
Proof.
  revert r; induction h as [|y h IH]; intros [|r] H; simpl in *;
    try lia; [reflexivity|]. apply IH. lia.
Qed.

Lemma nth_error_write_other (h : heap) (r r' : ref) (x : Segment) :
  r' <> r -> nth_error (write h r x) r' = nth_error h r'.
Proof.
  revert r r'; induction h as [|y h IH]; intros [|r] [|r'] H; simpl;
    try reflexivity; try congruence.
  apply IH. congruence.
Qed.

Lemma existsb_eqb_false (r : ref) (rs : list ref) :
  existsb (Nat.eqb r) rs = false -> ~ In r rs.
Proof.
  intros H Hin. assert (T : existsb (Nat.eqb r) rs = true).
  { apply existsb_exists. exists r. split; [exact Hin|apply Nat.eqb_refl]. }
  congruence.
Qed.

Lemma view_write_notin (h : heap) (r : ref) (x : Segment) (rs : list ref) :
  ~ In r rs -> view (write h r x) rs = view h rs.
Proof.
  induction rs as [|r0 rs IH]; intros H; [reflexivity|].
  simpl. rewrite nth_error_write_other, IH; [reflexivity| |];
    intros E; apply H; [right; exact E|left; congruence].
Qed.

(** Writing one object of an array with no object twice changes the one
    place of the array that refers to it. *)
Lemma view_write (h : heap) (x : Segment) (rs : list ref) :
  forall (d : list Segment) (idx : nat) (r : ref),
  distinct rs = true -> view h rs = Some d ->
  nth_error rs idx = Some r ->
  view (write h r x) rs = Some (firstn idx d ++ x :: skipn (S idx) d).
Proof.
  induction rs as [|r0 rs IH]; intros d idx r D V N.
  - destruct idx; discriminate.
  - simpl in D. apply andb_true_iff in D. destruct D as [D0 D].
    apply negb_true_iff, existsb_eqb_false in D0.
    simpl in V. destruct (nth_error h r0) as [x0|] eqn:E0; [|discriminate].
    destruct (view h rs) as [ds|] eqn:Vs; [|discriminate].
    injection V as <-. destruct idx as [|idx]; simpl in N.
    + injection N as <-. simpl.
      rewrite nth_error_write_same, (view_write_notin _ _ _ _ D0), Vs;
        [reflexivity|]. apply nth_error_Some. congruence.
    + assert (Hr : r0 <> r).
      { intros ->. apply D0. apply (nth_error_In _ _ N). }
      simpl view. rewrite (nth_error_write_other _ _ _ _ Hr), E0.
      rewrite (IH ds idx r D eq_refl N). reflexivity.
Qed.

Lemma view_nth (h : heap) (rs : list ref) :
  forall (d : list Segment) (idx : nat) (seg : Segment),
  view h rs = Some d -> nth_error d idx = Some seg ->
  exists r, nth_error rs idx = Some r /\ nth_error h r = Some seg.
Proof.
  induction rs as [|r0 rs IH]; intros d idx seg V N.
  - injection V as <-. destruct idx; discriminate.
  - simpl in V. destruct (nth_error h r0) as [x0|] eqn:E0; [|discriminate].
    destruct (view h rs) as [ds|] eqn:Vs; [|discriminate].
    injection V as <-. destruct idx as [|idx]; simpl in N.
    + injection N as <-. exists r0. auto.
    + apply (IH ds idx seg eq_refl N).
Qed.

Lemma nth_error_set (A : Type) (d : list A) (y : A) :
  forall idx j, idx < length d ->
  nth_error (firstn idx d ++ y :: skipn (S idx) d) j
  = if j =? idx then Some y else nth_error d j.
Proof.
  induction d as [|a d IH]; intros idx j H; [simpl in H; lia|].
  destruct idx as [|idx]; destruct j as [|j]; simpl; try reflexivity.
  apply IH. simpl in H. lia.
Qed.

Lemma length_set (A : Type) (d : list A) (y : A) (idx : nat) :
  idx < length d -> length (firstn idx d ++ y :: skipn (S idx) d) = length d.
Proof.
  intros H. rewrite length_app, length_firstn. cbn [length].
  rewrite length_skipn. lia.
Qed.

Lemma split_at (A : Type) (d : list A) (y : A) (idx : nat) :
  nth_error d idx = Some y -> d = firstn idx d ++ y :: skipn (S idx) d.
Proof.
  revert idx; induction d as [|a d IH]; intros [|idx] H; simpl in *;
    try discriminate.
  - congruence.
  - f_equal. apply IH, H.
Qed.

(** The array that [parseSegments] builds refers to no object twice. *)
Lemma alloc_distinct (h : heap) (d : list Segment) :
  distinct (snd (alloc h d)) = true.
Proof.
  unfold alloc. simpl. generalize (length h) as a.
  induction (length d) as [|n IH]; intros a; [reflexivity|].
  simpl. rewrite IH, andb_true_r. apply negb_true_iff.
  destruct (existsb (Nat.eqb a) (seq (S a) n)) eqn:E; [|reflexivity].
  apply existsb_exists in E. destruct E as (x & Hx & Ex).
  apply in_seq in Hx. apply Nat.eqb_eq in Ex. lia.
Qed.

Lemma alloc_view (h : heap) (d : list Segment) :
  view (fst (alloc h d)) (snd (alloc h d)) = Some d.
Proof.
  unfold alloc. simpl. revert h; induction d as [|x d IH]; intros h.
  - reflexivity.
  - simpl. rewrite nth_error_app2, Nat.sub_diag by lia. simpl.
    specialize (IH (h ++ [x])).
    rewrite <- app_assoc, length_app in IH. simpl in IH.
    rewrite Nat.add_1_r in IH. rewrite IH. reflexivity.
Qed.

(** In an array that refers to no object twice, [handleSegmentChange] at
    the index of a code segment changes the content of that segment and
    nothing else. *)
Lemma content_change_distinct
  (h : heap) (segments : list ref) (d : list Segment) (idx : nat)
  (l : str) (ro : bool) (c newValue : str) :
  distinct segments = true ->
  view h segments = Some d ->
  nth_error d idx = Some (Code l ro c) ->
  exists r,
    nth_error segments idx = Some r
    /\ handleSegmentChange h segments idx newValue
       = Some (write h r (Code l ro newValue), segments)
    /\ view (write h r (Code l ro newValue)) segments
       = Some (firstn idx d ++ Code l ro newValue :: skipn (S idx) d).
Proof.
  intros D V N.
  destruct (view_nth _ _ _ _ _ V N) as (r & Nr & Hr).
  exists r. split; [exact Nr|]. split.
  - unfold handleSegmentChange. rewrite Nr, Hr. reflexivity.
  - apply view_write; assumption.
Qed.

Lemma write_app (h0 d : heap) (idx : nat) (x : Segment) :
  idx < length d ->
  write (h0 ++ d) (length h0 + idx) x
  = h0 ++ firstn idx d ++ x :: skipn (S idx) d.
Proof.
  intros H. induction h0 as [|y h0 IH]; simpl.
  - revert idx H; induction d as [|a d IHd]; intros [|idx] H; simpl in *;
      try lia; [reflexivity|]. f_equal. apply IHd. lia.
  - f_equal. exact IH.
Qed.

(** C8. For the array that holds the segments [d], replacing the content of
    the code segment at [idx] by [handleSegmentChange] gives the array of
    the same objects, which now holds [d'] : the segment at [idx] keeps its
    type, language and read-only flag and has the new content, every other
    segment is as before, and the raw text that [buildRawText] gives for
    [d'] is the one for [d] with the rendering of that one segment
    replaced. *)
Theorem content_change_frame
  (h0 : heap) (d : list Segment) (idx : nat)
  (l : str) (ro : bool) (c newValue : str) :
  nth_error d idx = Some (Code l ro c) ->
  exists h' d',
    handleSegmentChange (fst (alloc h0 d)) (snd (alloc h0 d)) idx newValue
    = Some (h', snd (alloc h0 d))
    /\ (h', snd (alloc h0 d)) = alloc h0 d'
    /\ view h' (snd (alloc h0 d)) = Some d'
    /\ length d' = length d
    /\ nth_error d' idx = Some (Code l ro newValue)
    /\ (forall j, j <> idx -> nth_error d' j = nth_error d j)
    /\ (forall j, j <> idx ->
        option_map render (nth_error d' j) = option_map render (nth_error d j))
    /\ buildRawText d
       = buildRawText (firstn idx d) ++ render (Code l ro c)
           ++ buildRawText (skipn (S idx) d)
    /\ buildRawText d'
       = buildRawText (firstn idx d) ++ render (Code l ro newValue)
           ++ buildRawText (skipn (S idx) d).
Proof.
  intros N.
  assert (L : idx < length d) by (apply nth_error_Some; congruence).
  destruct (content_change_distinct _ _ d idx l ro c newValue
              (alloc_distinct h0 d) (alloc_view h0 d) N)
    as (r & Nr & Hh & Hv).
  assert (Er : r = length h0 + idx).
  { unfold alloc in Nr. simpl in Nr.
    pose proof (nth_error_nth _ _ 0 Nr) as E.
    rewrite seq_nth in E by exact L. congruence. }
  set (d' := firstn idx d ++ Code l ro newValue :: skipn (S idx) d) in *.
  assert (Ld : length d' = length d) by (apply length_set, L).
  assert (F : forall j, j <> idx -> nth_error d' j = nth_error d j).
  { intros j Hj. unfold d'. rewrite nth_error_set by exact L.
    destruct (Nat.eqb_spec j idx); [contradiction|reflexivity]. }
  exists (write (fst (alloc h0 d)) r (Code l ro newValue)), d'.
  repeat split.
  - exact Hh.
  - unfold alloc. simpl. rewrite Ld, Er, write_app by exact L. reflexivity.
  - exact Hv.
  - exact Ld.
  - unfold d'. rewrite nth_error_set, Nat.eqb_refl by exact L. reflexivity.
  - exact F.
  - intros j Hj. rewrite (F j Hj). reflexivity.
  - rewrite (split_at _ _ _ _ N) at 1.
    rewrite buildRawText_app, buildRawText_cons. reflexivity.
  - unfold d'. rewrite buildRawText_app, buildRawText_cons. reflexivity.
Qed.

Lemma content_change_frame_witness :
  nth_error [Text (lit "abc"); Code (lit "python") false (lit "print(1)");
             Text (lit "def")] 1
  = Some (Code (lit "python") false (lit "print(1)"))
  /\ exists h' d',
      handleSegmentChange
        [Text (lit "abc"); Code (lit "python") false (lit "print(1)");
         Text (lit "def")] [0; 1; 2] 1 (lit "print(2)")
      = Some (h', [0; 1; 2])
      /\ view h' [0; 1; 2] = Some d'
      /\ nth_error d' 1 = Some (Code (lit "python") false (lit "print(2)"))
      /\ (forall j, j <> 1 ->
          nth_error d' j
          = nth_error [Text (lit "abc");
                       Code (lit "python") false (lit "print(1)");
                       Text (lit "def")] j).
Proof.
  split; [reflexivity|].
  destruct (content_change_frame []
              [Text (lit "abc"); Code (lit "python") false (lit "print(1)");
               Text (lit "def")]
              1 (lit "python") false (lit "print(1)") (lit "print(2)")
              eq_refl)
    as (h' & d' & H1 & _ & H2 & _ & H4 & H5 & _).
  exists h', d'. auto.
Defined.

(** An object that the array refers to twice changes in both places. *)
Example shared_object_changes_twice :
  handleSegmentChange [Code (lit "js") false (lit "a")] [0; 0] 0 (lit "b")
  = Some ([Code (lit "js") false (lit "b")], [0; 0])
  /\ view [Code (lit "js") false (lit "b")] [0; 0]
     = Some [Code (lit "js") false (lit "b"); Code (lit "js") false (lit "b")].
Proof. split; reflexivity. Qed.

End Editing.

(** ** The examples of the specification *)

Example decode_spec_example_1 :
  parseSegments (lit "abc{{{python" ++ nl :: lit "print(1)}}}def")
  = Some [Text (lit "abc"); Code (lit "python") false (lit "print(1)");
          Text (lit "def")].
Proof. reflexivity. Qed.

Example decode_spec_example_2 :
  parseSegments (lit "{{{python [readonly]" ++ nl :: lit "x=1}}}")
  = Some [Code (lit "python") true (lit "x=1")].
Proof. reflexivity. Qed.

Example decode_spec_example_3 :
  parseSegments (lit "no delimiters here")
  = Some [Text (lit "no delimiters here")].
Proof. reflexivity. Qed.

Example decode_empty : parseSegments [] = Some [].
Proof. reflexivity. Qed.

Example decode_body_without_newline :
  parseSegments (lit "{{{python}}}") = Some [Code (lit "python") false []].
Proof. reflexivity. Qed.

Example decode_nested_opener :
  parseSegments (lit "{{{a{{{b") = Some [Code (lit "a{{{b") false []].
Proof. reflexivity. Qed.

(** ** The decoder of [parseSegments.js] *)

Section Legacy.

Lemma trim_find_None (pat s : str) :
  find pat s = None -> find pat (trim s) = None.
Proof.
  destruct (trim_decomp s) as (wl & wr & E & _). intros H.
  rewrite E in H. apply find_None_app in H. destruct H as [_ H].
  apply find_None_app in H. tauto.
Qed.

Lemma find_char_first (x : char) (h c : str) :
  ~ In x h -> find [x] (h ++ x :: c) = Some (length h).
Proof.
  induction h as [|y h IH]; intros H.
  - simpl. unfold char_eqb. rewrite N.eqb_refl. reflexivity.
  - rewrite <- app_comm_cons, find_cons.
    assert (E : char_eqb x y = false).
    { apply N.eqb_neq. intros ->. apply H. left. reflexivity. }
    simpl starts_with. rewrite E. simpl.
    rewrite IH; [reflexivity|]. intros Hin. apply H. right. exact Hin.
Qed.

Lemma find_char_None (x : char) (s : str) : ~ In x s -> find [x] s = None.
Proof.
  induction s as [|y s IH]; intros H; [reflexivity|].
  rewrite find_cons.
  assert (E : char_eqb x y = false).
  { apply N.eqb_neq. intros ->. apply H. left. reflexivity. }
  simpl starts_with. rewrite E. simpl.
  rewrite IH; [reflexivity|]. intros Hin. apply H. right. exact Hin.
Qed.

Lemma codeSegment_newline (h c : str) :
  ~ In nl h -> ParseSegmentsJs.codeSegment (h ++ nl :: c) = Code (trim h) false c.
Proof.
  intros H. unfold ParseSegmentsJs.codeSegment, indexOf.
  simpl Nat.min. rewrite skipn_O, (find_char_first _ _ _ H).
  simpl option_map. unfold slice, slice_from.
  rewrite skipn_O, Nat.sub_0_r, firstn_app, firstn_all, Nat.sub_diag.
  simpl firstn. rewrite app_nil_r.
  rewrite (skipn_at (h ++ nl :: c) (h ++ [nl]) c).
  - reflexivity.
  - rewrite <- app_assoc. reflexivity.
  - rewrite length_app. reflexivity.
Qed.

Lemma codeSegment_one_line (b : str) :
  ~ In nl b -> ParseSegmentsJs.codeSegment b = Code [] false b.
Proof.
  intros H. unfold ParseSegmentsJs.codeSegment, indexOf.
  simpl Nat.min. rewrite skipn_O, (find_char_None _ _ H). reflexivity.
Qed.

Lemma legacy_body_text (pre t : str) (segs : list Segment) :
  find opener t = None ->
  ParseSegmentsJs.loop_body (pre ++ t) (mkState (length pre) segs)
  = Break (segs ++ [Text t]).
Proof.
  intros H. unfold ParseSegmentsJs.loop_body. simpl index. simpl segments.
  rewrite (indexOf_at _ pre t _ _ eq_refl eq_refl), H. simpl.
  rewrite (slice_from_at _ pre t _ eq_refl eq_refl). reflexivity.
Qed.

Lemma legacy_body_open (pre t b : str) (segs : list Segment) :
  find opener (t ++ opener) = Some (length t) ->
  find closer b = None ->
  ParseSegmentsJs.loop_body (pre ++ t ++ opener ++ b)
    (mkState (length pre) segs)
  = Break (segs ++ text_seg t ++ [Code [] false b]).
Proof.
  intros Ho Hc. unfold ParseSegmentsJs.loop_body.
  simpl index. simpl segments.
  rewrite (indexOf_at _ pre (t ++ opener ++ b) _ _ eq_refl eq_refl).
  rewrite (find_at_end _ _ _ Ho). simpl option_map. cbv beta iota zeta.
  rewrite (text_push segs _ pre t (opener ++ b) _ eq_refl eq_refl).
  assert (E : pre ++ t ++ opener ++ b = (pre ++ t ++ opener) ++ b)
    by (rewrite <- !app_assoc; reflexivity).
  assert (L : length (pre ++ t ++ opener) = length pre + length t + 3)
    by (rewrite !length_app; simpl; lia).
  rewrite (indexOf_at _ _ _ _ _ E L), Hc. simpl option_map.
  cbv beta iota zeta.
  rewrite (slice_from_at _ _ _ _ E L), <- app_assoc. reflexivity.
Qed.

Lemma legacy_body_block (pre t b rest : str) (segs : list Segment) :
  find opener (t ++ opener) = Some (length t) ->
  find closer (b ++ closer) = Some (length b) ->
  ParseSegmentsJs.loop_body (pre ++ t ++ opener ++ b ++ closer ++ rest)
    (mkState (length pre) segs)
  = Next (mkState (length (pre ++ t ++ opener ++ b ++ closer))
            (segs ++ text_seg t ++ [ParseSegmentsJs.codeSegment b])).
Proof.
  intros Ho Hc. unfold ParseSegmentsJs.loop_body.
  simpl index. simpl segments.
  rewrite (indexOf_at _ pre (t ++ opener ++ b ++ closer ++ rest) _ _
             eq_refl eq_refl).
  rewrite (find_at_end _ _ _ Ho). simpl option_map. cbv beta iota zeta.
  rewrite (text_push segs _ pre t (opener ++ b ++ closer ++ rest) _
             eq_refl eq_refl).
  assert (E : pre ++ t ++ opener ++ b ++ closer ++ rest
              = (pre ++ t ++ opener) ++ b ++ closer ++ rest)
    by (rewrite <- !app_assoc; reflexivity).
  assert (L : length (pre ++ t ++ opener) = length pre + length t + 3)
    by (rewrite !length_app; simpl; lia).
  rewrite (indexOf_at _ _ _ _ _ E L), (find_at_end _ _ _ Hc).
  simpl option_map. cbv beta iota zeta.
  rewrite (slice_at _ _ _ _ _ E L), <- app_assoc.
  do 2 f_equal. rewrite !length_app. simpl. lia.
Qed.

Lemma legacy_while_done (fuel : nat) (s : str) (segs : list Segment) :
  ParseSegmentsJs.while fuel s (mkState (length s) segs) = Some segs.
Proof. destruct fuel; simpl; rewrite Nat.ltb_irrefl; reflexivity. Qed.

Lemma legacy_while_step (fuel : nat) (s : str) (st : state) :
  index st < length s ->
  ParseSegmentsJs.while (S fuel) s st
  = match ParseSegmentsJs.loop_body s st with
    | Break segs => Some segs
    | Next st' => ParseSegmentsJs.while fuel s st'
    end.
Proof.
  intros H. simpl. destruct (Nat.ltb_spec (index st) (length s)); [|lia].
  reflexivity.
Qed.

Lemma map_text_piece (f : Piece -> Segment) (t : str) :
  (forall x, f (PText x) = Text x) -> List.map f (text_piece t) = text_seg t.
Proof. intros H. destruct t; simpl; [reflexivity|]. rewrite H. reflexivity. Qed.

(** The loop of [parseSegments.js] follows the cut. *)
Lemma Cut_legacy_while (r : str) (ps : list Piece) :
  Cut r ps ->
  forall (pre : str) (segs : list Segment) (fuel : nat),
    length r <= fuel ->
    ParseSegmentsJs.while fuel (pre ++ r) (mkState (length pre) segs)
    = Some (segs ++ List.map legacy_segment ps).
Proof.
  induction 1 as [|t Ht Ho|t b Ho Hc|t b rest ps Ho Hc HP IH];
    intros pre segs fuel Hf.
  - rewrite !app_nil_r. apply legacy_while_done.
  - destruct fuel as [|fuel]; [destruct t; simpl in *; [congruence|lia]|].
    rewrite legacy_while_step.
    + rewrite legacy_body_text by assumption. reflexivity.
    + simpl. rewrite length_app. destruct t; simpl; [congruence|lia].
  - destruct fuel as [|fuel]; [rewrite !length_app in Hf; simpl in Hf; lia|].
    rewrite legacy_while_step.
    + rewrite legacy_body_open by assumption.
      rewrite map_app, map_text_piece by reflexivity. reflexivity.
    + simpl. rewrite !length_app. simpl. lia.
  - destruct fuel as [|fuel]; [rewrite !length_app in Hf; simpl in Hf; lia|].
    rewrite legacy_while_step.
    + rewrite legacy_body_block by assumption.
      assert (E : pre ++ t ++ opener ++ b ++ closer ++ rest
                  = (pre ++ t ++ opener ++ b ++ closer) ++ rest)
        by (rewrite <- !app_assoc; reflexivity).
      rewrite E, IH.
      * rewrite map_app, map_text_piece by reflexivity.
        rewrite <- !app_assoc. reflexivity.
      * rewrite !length_app in Hf. simpl in Hf. lia.
    + simpl. rewrite !length_app. simpl. lia.
Qed.

Lemma Cut_legacy (s : str) (ps : list Piece) :
  Cut s ps -> ParseSegmentsJs.parseSegments s = Some (List.map legacy_segment ps).
Proof.
  intros H. unfold ParseSegmentsJs.parseSegments.
  apply (Cut_legacy_while _ _ H [] [] (length s)). lia.
Qed.

Lemma Cut_Parse (s : str) (ps : list Piece) :
  Cut s ps -> Parse s (List.map editor_segment ps).
Proof.
  induction 1 as [|t Ht Ho|t b Ho Hc|t b rest ps Ho Hc HP IH].
  - constructor.
  - apply Parse_text; assumption.
  - rewrite map_app, map_text_piece by reflexivity.
    apply Parse_open; assumption.
  - rewrite map_app, map_text_piece by reflexivity.
    apply Parse_block; assumption.
Qed.

Lemma text_piece_raw (t : str) : concat (List.map piece_raw (text_piece t)) = t.
Proof. destruct t; [reflexivity|]. simpl. f_equal. apply app_nil_r. Qed.

Lemma Cut_raw (s : str) (ps : list Piece) :
  Cut s ps -> s = concat (List.map piece_raw ps).
Proof.
  induction 1 as [|t Ht Ho|t b Ho Hc|t b rest ps Ho Hc HP IH].
  - reflexivity.
  - simpl. symmetry. apply app_nil_r.
  - rewrite map_app, concat_app, text_piece_raw. simpl.
    rewrite app_nil_r. reflexivity.
  - rewrite map_app, concat_app, text_piece_raw. simpl.
    rewrite <- IH, <- !app_assoc. reflexivity.
Qed.

Lemma Cut_total (s : str) : exists ps, Cut s ps.
Proof.
  remember (length s) as n eqn:Hn. revert s Hn.
  induction n as [n IH] using lt_wf_ind. intros s Hn.
  destruct s as [|c s]; [exists []; constructor|].
  destruct (find opener (c :: s)) as [k|] eqn:Ho.
  - pose proof (find_Some_split _ _ _ Ho) as Es.
    pose proof (find_Some_prefix _ _ _ Ho) as Ft.
    set (t := firstn k (c :: s)) in *.
    set (r := skipn (k + length opener) (c :: s)) in *.
    destruct (find closer r) as [j|] eqn:Hc.
    + pose proof (find_Some_split _ _ _ Hc) as Er.
      pose proof (find_Some_prefix _ _ _ Hc) as Fb.
      set (b := firstn j r) in *.
      set (rest := skipn (j + length closer) r) in *.
      destruct (IH (length rest)) with (s := rest) as [ps Hps];
        [|reflexivity|].
      * subst n. rewrite Es, Er, !length_app. simpl. lia.
      * exists (text_piece t ++ PBlock b :: ps).
        rewrite Es, Er. apply Cut_block; assumption.
    + exists (text_piece t ++ [POpen r]).
      rewrite Es. apply Cut_open; assumption.
  - exists [PText (c :: s)]. apply Cut_text; [discriminate|assumption].
Qed.

(** X1. The two decoders cut every raw text at the same places: there are
    pieces whose characters, put together, are the raw text, such that
    [parseSegments] of [Editor.jsx] returns what it makes of each piece and
    [parseSegments] of [parseSegments.js] what it makes of each piece; the
    two results have a text segment at the same places, with the same
    content. *)
Theorem decoders_share_cut (s : str) :
  exists ps d1 d2,
    s = concat (List.map piece_raw ps)
    /\ parseSegments s = Some d1
    /\ ParseSegmentsJs.parseSegments s = Some d2
    /\ d1 = List.map editor_segment ps
    /\ d2 = List.map legacy_segment ps
    /\ length d1 = length d2
    /\ forall i t, nth_error d1 i = Some (Text t) <-> nth_error d2 i = Some (Text t).
Proof.
  destruct (Cut_total s) as [ps H].
  exists ps, (List.map editor_segment ps), (List.map legacy_segment ps).
  split; [apply Cut_raw, H|].
  split; [apply Parse_parseSegments, Cut_Parse, H|].
  split; [apply Cut_legacy, H|].
  split; [reflexivity|]. split; [reflexivity|].
  split; [rewrite !length_map; reflexivity|].
  intros i t. rewrite !nth_error_map.
  destruct (nth_error ps i) as [[x|b|b]|]; simpl; try tauto.
  - pose proof (parseCodeBlock_is_code b) as E.
    destruct (parseCodeBlock b); [discriminate|].
    unfold ParseSegmentsJs.codeSegment.
    destruct (indexOf b [nl] 0); split; discriminate.
  - pose proof (parseCodeBlock_is_code b) as E.
    destruct (parseCodeBlock b); [discriminate|]. split; discriminate.
Qed.

End Legacy.

(** ** Round trips of [parseSegments.js], and what a decoded code segment
    holds *)

Section LegacyRoundTrip.

Lemma legacy_render_code (l c : str) (ro : bool) :
  ParseSegmentsJs.render (Code l ro c) = opener ++ (l ++ nl :: c) ++ closer.
Proof.
  unfold ParseSegmentsJs.render. destruct l as [|x l]; [reflexivity|].
  simpl ParseSegmentsJs.truthy. cbv iota.
  rewrite <- !app_assoc. reflexivity.
Qed.

Lemma legacy_build_concat (d : list Segment) :
  ParseSegmentsJs.buildRawText d
  = concat (List.map ParseSegmentsJs.render d).
Proof. apply join_nil_concat. Qed.

Lemma legacy_build_cons (seg : Segment) (d : list Segment) :
  ParseSegmentsJs.buildRawText (seg :: d)
  = ParseSegmentsJs.render seg ++ ParseSegmentsJs.buildRawText d.
Proof. rewrite !legacy_build_concat. reflexivity. Qed.

Lemma legacy_build_app (d1 d2 : list Segment) :
  ParseSegmentsJs.buildRawText (d1 ++ d2)
  = ParseSegmentsJs.buildRawText d1 ++ ParseSegmentsJs.buildRawText d2.
Proof. rewrite !legacy_build_concat, map_app, concat_app. reflexivity. Qed.

Lemma legacy_build_text_seg (t : str) :
  ParseSegmentsJs.buildRawText (text_seg t) = t.
Proof. destruct t; reflexivity. Qed.

Lemma legacy_body_closer (l c : str) :
  find closer l = None ->
  find closer (c ++ closer) = Some (length c) ->
  find closer ((l ++ nl :: c) ++ closer) = Some (length (l ++ nl :: c)).
Proof. intros Hl Hc. apply (body_closer l c false Hl Hc). Qed.

(** One block written by [buildRawText] of [parseSegments.js], cut again. *)
Lemma Cut_legacy_rendered (t l c rest : str) (ro : bool) (ps : list Piece) :
  find opener (t ++ opener) = Some (length t) ->
  trim l = l -> ~ In nl l -> find closer l = None ->
  find closer (c ++ closer) = Some (length c) ->
  Cut rest ps ->
  Cut (t ++ ParseSegmentsJs.render (Code l ro c) ++ rest)
      (text_piece t ++ PBlock (l ++ nl :: c) :: ps)
  /\ legacy_segment (PBlock (l ++ nl :: c)) = Code l false c.
Proof.
  intros Ho Ht Hn Hl Hc HP. split.
  - rewrite legacy_render_code.
    replace ((opener ++ (l ++ nl :: c) ++ closer) ++ rest)
      with (opener ++ (l ++ nl :: c) ++ closer ++ rest)
      by (rewrite <- !app_assoc; reflexivity).
    apply (Cut_block t (l ++ nl :: c) rest ps Ho); [|exact HP].
    apply legacy_body_closer; assumption.
  - simpl. rewrite (codeSegment_newline _ _ Hn), Ht. reflexivity.
Qed.

Lemma legacy_canonical_code_spec (l c : str) (ro : bool) :
  legacy_canonical_code l ro c = true ->
  ro = false /\ trim l = l /\ ~ In nl l /\ find closer l = None
  /\ find closer (c ++ closer) = Some (length c).
Proof.
  unfold legacy_canonical_code. rewrite !andb_true_iff, !negb_true_iff.
  intros [[[[[R T] N] C] I] E].
  split; [exact R|]. split; [apply str_eqb_eq, T|].
  split; [apply existsb_nl_false, N|]. split; [apply includes_false, C|].
  apply closer_end; assumption.
Qed.

Lemma legacy_canonical_Cut (n : nat) (d : list Segment) :
  length d <= n -> legacy_canonical d = true ->
  exists ps, Cut (ParseSegmentsJs.buildRawText d) ps
             /\ List.map legacy_segment ps = d.
Proof.
  revert d; induction n as [|n IH]; intros d Hn Hd.
  - destruct d; [exists []; split; [constructor|reflexivity]|simpl in Hn; lia].
  - destruct d as [|[t|l ro c] d]; [exists []; split; [constructor|reflexivity]| |].
    + simpl in Hd. rewrite !andb_true_iff, !negb_true_iff in Hd.
      destruct Hd as [[[Ht Ho] Hnext] Hd].
      assert (Ht' : t <> []).
      { intros ->. discriminate Ht. }
      destruct d as [|[t'|l ro c] d]; [| discriminate |].
      * exists [PText t]. split; [|reflexivity].
        rewrite legacy_build_cons. simpl. rewrite app_nil_r.
        apply Cut_text; [exact Ht'|apply includes_false, Ho].
      * apply negb_true_iff in Hnext.
        simpl in Hd. apply andb_true_iff in Hd. destruct Hd as [Hc Hd].
        destruct (legacy_canonical_code_spec _ _ _ Hc) as (R & T & N & C & E).
        subst ro.
        destruct (IH d) as (ps & Hps & Eps); [simpl in Hn; lia|exact Hd|].
        destruct (Cut_legacy_rendered t l c _ false ps
                    (opener_end _ Ho Hnext) T N C E Hps) as [HC HS].
        exists (text_piece t ++ PBlock (l ++ nl :: c) :: ps). split.
        -- rewrite !legacy_build_cons. exact HC.
        -- rewrite map_app, map_text_piece by reflexivity.
           cbn [List.map]. rewrite HS, Eps.
           destruct t; [congruence|reflexivity].
    + simpl in Hd. apply andb_true_iff in Hd. destruct Hd as [Hc Hd].
      destruct (legacy_canonical_code_spec _ _ _ Hc) as (R & T & N & C & E).
      subst ro.
      destruct (IH d) as (ps & Hps & Eps); [simpl in Hn; lia|exact Hd|].
      destruct (Cut_legacy_rendered [] l c _ false ps eq_refl T N C E Hps)
        as [HC HS].
      exists (PBlock (l ++ nl :: c) :: ps). split.
      * rewrite legacy_build_cons. exact HC.
      * cbn [List.map]. rewrite HS, Eps. reflexivity.
Qed.

(** X2. A document with no read-only segment whose text segments are
    non-empty, hold no opening delimiter, are not adjacent and do not end
    with an opening brace before a code segment, and whose code segments
    have a trimmed language with no newline and no closing delimiter and a
    content with no closing delimiter that does not end with a closing
    brace, is read back by [parseSegments] of [parseSegments.js] from what
    [buildRawText] of that file writes. *)
Theorem legacy_roundtrip (d : list Segment) :
  legacy_canonical d = true ->
  ParseSegmentsJs.parseSegments (ParseSegmentsJs.buildRawText d) = Some d.
Proof.
  intros H.
  destruct (legacy_canonical_Cut (length d) d (le_n _) H) as (ps & C & E).
  rewrite (Cut_legacy _ _ C), E. reflexivity.
Qed.

Lemma legacy_roundtrip_witness :
  legacy_canonical
    [Text (lit "abc"); Code (lit "[readonly] py") false (lit "print(1)");
     Code [] false (lit "x=1"); Text (lit "def{")] = true
  /\ ParseSegmentsJs.parseSegments
       (ParseSegmentsJs.buildRawText
          [Text (lit "abc"); Code (lit "[readonly] py") false (lit "print(1)");
           Code [] false (lit "x=1"); Text (lit "def{")])
     = Some [Text (lit "abc"); Code (lit "[readonly] py") false (lit "print(1)");
             Code [] false (lit "x=1"); Text (lit "def{")].
Proof.
  split; [reflexivity|].
  apply (legacy_roundtrip
           [Text (lit "abc"); Code (lit "[readonly] py") false (lit "print(1)");
            Code [] false (lit "x=1"); Text (lit "def{")]).
  reflexivity.
Defined.

(** The first closing delimiter after a string that holds none starts
    within its last two characters or right after it. *)
Lemma closer_after (c : str) :
  find closer c = None ->
  exists k, find closer (c ++ closer) = Some k
            /\ k <= length c /\ length c < k + 3.
Proof.
  intros Fc.
  destruct (find_exists closer c []) as (k & Hk & L).
  rewrite app_nil_r in Hk. exists k. split; [exact Hk|]. split; [exact L|].
  destruct (Nat.le_gt_cases (k + 3) (length c)) as [M|M]; [|exact M].
  exfalso. pose proof (find_Some_starts _ _ _ Hk) as S.
  rewrite skipn_app in S. replace (k - length c) with 0 in S by lia.
  rewrite skipn_O, starts_with_app_long in S
    by (rewrite length_skipn; simpl; lia).
  rewrite (find_None_skipn _ _ _ Fc) in S. discriminate.
Qed.

(** What [codeSegment] makes of the body of a closed block. *)
Lemma codeSegment_facts (b : str) :
  find closer (b ++ closer) = Some (length b) ->
  exists l c,
    ParseSegmentsJs.codeSegment b = Code l false c
    /\ trim l = l /\ ~ In nl l /\ find closer l = None
    /\ find closer (c ++ closer) = Some (length c).
Proof.
  intros F.
  assert (Fb : find closer b = None)
    by (apply find_end_None; [discriminate|exact F]).
  destruct (first_newline b) as [(h & c & -> & Hh)|Hb].
  - exists (trim h), c. rewrite (codeSegment_newline _ _ Hh).
    split; [reflexivity|]. split; [apply trim_trim|].
    split; [intros Hin; apply Hh, trim_In, Hin|].
    split.
    + apply trim_find_None. apply find_None_app in Fb. tauto.
    + apply (content_closer (h ++ nl :: c) h c F). left. reflexivity.
  - exists [], b. rewrite (codeSegment_one_line _ Hb).
    repeat split; auto.
Qed.

Lemma Cut_legacy_reencode (s : str) (ps : list Piece) :
  Cut s ps ->
  exists ps',
    Cut (ParseSegmentsJs.buildRawText (List.map legacy_segment ps)) ps'
    /\ ParseSegmentsJs.buildRawText (List.map legacy_segment ps')
       = ParseSegmentsJs.buildRawText (List.map legacy_segment ps).
Proof.
  induction 1 as [|t Ht Ho|t b Ho Hc|t b rest ps Ho Hc HP IH].
  - exists []. split; [constructor|reflexivity].
  - exists [PText t]. split; [|reflexivity].
    simpl. apply Cut_text; assumption.
  - destruct (closer_after _ Hc) as (k & Fk & L1 & L2).
    pose proof (find_Some_split _ _ _ Fk) as Ec.
    pose proof (find_Some_prefix _ _ _ Fk) as Fp.
    assert (F0 : firstn k (b ++ closer) = firstn k b).
    { rewrite firstn_app. replace (k - length b) with 0 by lia.
      simpl. apply app_nil_r. }
    rewrite F0 in Ec, Fp.
    set (c0 := firstn k b) in *.
    set (r := skipn (k + length closer) (b ++ closer)) in *.
    assert (Lr : length r < 3).
    { unfold r. rewrite length_skipn, length_app. simpl. lia. }
    assert (Pr : Cut r (text_piece r)).
    { destruct r as [|x r']; [constructor|].
      apply Cut_text; [discriminate|]. apply find_short. simpl. exact Lr. }
    destruct (Cut_legacy_rendered t [] c0 r false (text_piece r)
                Ho eq_refl (fun H => H) eq_refl Fp Pr) as [HC HS].
    exists (text_piece t ++ PBlock ([] ++ nl :: c0) :: text_piece r).
    assert (R : t ++ ParseSegmentsJs.render (Code [] false c0) ++ r
                = ParseSegmentsJs.buildRawText
                    (List.map legacy_segment (text_piece t ++ [POpen b]))).
    { rewrite map_app, map_text_piece by reflexivity.
      rewrite legacy_build_app, legacy_build_text_seg. simpl List.map.
      rewrite legacy_build_cons, !legacy_render_code.
      change (ParseSegmentsJs.buildRawText []) with (@nil char).
      rewrite app_nil_r. f_equal. rewrite <- !app_assoc. f_equal.
      simpl. f_equal. symmetry. exact Ec. }
    split; [rewrite <- R; exact HC|].
    rewrite <- R, map_app, map_text_piece by reflexivity.
    rewrite legacy_build_app, legacy_build_text_seg. f_equal.
    cbn [List.map]. rewrite HS, legacy_build_cons. f_equal.
    rewrite map_text_piece by reflexivity. apply legacy_build_text_seg.
  - destruct (codeSegment_facts _ Hc) as (l & c & E & T & N & C & Fc).
    destruct IH as (ps' & HP' & E').
    destruct (Cut_legacy_rendered t l c _ false ps' Ho T N C Fc HP')
      as [HC HS].
    exists (text_piece t ++ PBlock (l ++ nl :: c) :: ps').
    assert (R : t ++ ParseSegmentsJs.render (Code l false c)
                  ++ ParseSegmentsJs.buildRawText (List.map legacy_segment ps)
                = ParseSegmentsJs.buildRawText
                    (List.map legacy_segment (text_piece t ++ PBlock b :: ps))).
    { rewrite map_app, map_text_piece by reflexivity.
      rewrite legacy_build_app, legacy_build_text_seg. cbn [List.map].
      rewrite legacy_build_cons. simpl legacy_segment. rewrite E.
      reflexivity. }
    split; [rewrite <- R; exact HC|].
    rewrite <- R, map_app, map_text_piece by reflexivity.
    rewrite legacy_build_app, legacy_build_text_seg. f_equal.
    cbn [List.map]. rewrite HS, legacy_build_cons, E'. reflexivity.
Qed.

(** X3. With the decoder and the encoder of [parseSegments.js], encoding
    what was decoded gives, for every raw text, a raw text that decoding and
    encoding leave as it is. *)
Theorem legacy_reencode_fixpoint (s : str) :
  exists t, ParseSegmentsJs.reencode s = Some t
            /\ ParseSegmentsJs.reencode t = Some t.
Proof.
  destruct (Cut_total s) as [ps H].
  destruct (Cut_legacy_reencode _ _ H) as (ps' & H' & E).
  exists (ParseSegmentsJs.buildRawText (List.map legacy_segment ps)).
  unfold ParseSegmentsJs.reencode.
  rewrite (Cut_legacy _ _ H), (Cut_legacy _ _ H'). simpl.
  rewrite E. auto.
Qed.

(** What [parseCodeBlock] makes of a body with no closing delimiter. *)
Lemma parseCodeBlock_invariant (b l c : str) (ro : bool) :
  find closer b = None ->
  parseCodeBlock b = Code l ro c ->
  trim l = l /\ ~ In nl l /\ includes c closer = false
  /\ (ro = false -> includes l marker = false /\ includes l closer = false).
Proof.
  intros Fb E.
  destruct (parseCodeBlock_shape b) as (h & c' & E' & Hn & Hb).
  rewrite E in E'. injection E' as -> -> <-.
  assert (Fh : find closer h = None /\ find closer c = None).
  { destruct Hb as [->|[-> ->]].
    - apply find_None_app in Fb. destruct Fb as [Fh Fc]. split; [exact Fh|].
      apply (find_None_app closer [nl] c) in Fc. tauto.
    - split; [exact Fb|reflexivity]. }
  split; [apply header_language_trimmed|].
  split; [intros Hin; apply Hn, header_language_In, Hin|].
  split; [apply includes_false; tauto|].
  intros I. unfold header_language. rewrite I.
  split; apply includes_false, trim_find_None; [|tauto].
  apply includes_false, I.
Qed.

Lemma Parse_codes (s : str) (d : list Segment) :
  Parse s d ->
  forall l ro c, In (Code l ro c) d ->
  trim l = l /\ ~ In nl l /\ includes c closer = false
  /\ (ro = false -> includes l marker = false /\ includes l closer = false).
Proof.
  induction 1 as [|t Ht Ho|t b Ho Hc|t b rest d Ho Hc HP IH];
    intros l ro c Hin.
  - destruct Hin.
  - destruct Hin as [[=]|[]].
  - apply in_app_or in Hin. destruct Hin as [Hin|[Hin|[]]].
    + destruct t; [destruct Hin|destruct Hin as [[=]|[]]].
    + apply (parseCodeBlock_invariant b); assumption.
  - apply in_app_or in Hin. destruct Hin as [Hin|[Hin|Hin]].
    + destruct t; [destruct Hin|destruct Hin as [[=]|[]]].
    + apply (parseCodeBlock_invariant b); [|assumption].
      apply find_end_None; [discriminate|exact Hc].
    + apply (IH _ _ _ Hin).
Qed.

(** X4. In what [parseSegments] returns, every code segment has a language
    that is trimmed and holds no newline and a content that holds no closing
    delimiter; if the segment is not read-only, its language holds neither
    the marker nor a closing delimiter. *)
Theorem code_segments_invariant (s : str) (d : list Segment)
  (l : str) (ro : bool) (c : str) :
  parseSegments s = Some d -> In (Code l ro c) d ->
  trim l = l /\ ~ In nl l /\ includes c closer = false
  /\ (ro = false -> includes l marker = false /\ includes l closer = false).
Proof.
  intros H. apply (Parse_codes s), parseSegments_Parse, H.
Qed.

Lemma code_segments_invariant_witness :
  trim (lit "py") = lit "py" /\ ~ In nl (lit "py")
  /\ includes (lit "y}}") closer = false
  /\ (false = false ->
      includes (lit "py") marker = false /\ includes (lit "py") closer = false).
Proof.
  apply (code_segments_invariant
           (lit "a{{{ py " ++ nl :: lit "x}}}b{{{py" ++ nl :: lit "y}}")
           [Text (lit "a"); Code (lit "py") false (lit "x"); Text (lit "b");
            Code (lit "py") false (lit "y}}")]
           (lit "py") false (lit "y}}")).
  - reflexivity.
  - simpl. auto.
Defined.

End LegacyRoundTrip.

(** ** Replacing every match, and the text that is copied *)

Section Copy.

Lemma rg_from_skip (k : nat) (s pat rep : str) :
  replace_global_from k s pat rep = replace_global (skipn k s) pat rep.
Proof.
  revert k; induction s as [|c s IH]; intros k.
  - rewrite skipn_nil. reflexivity.
  - destruct k as [|k]; [reflexivity|]. simpl. apply IH.
Qed.

Lemma rg_nil (pat rep : str) : replace_global [] pat rep = [].
Proof. reflexivity. Qed.

Lemma rg_match (s pat rep : str) :
  pat <> [] -> starts_with pat s = true ->
  replace_global s pat rep
  = rep ++ replace_global (skipn (length pat) s) pat rep.
Proof.
  intros Hp H. destruct pat as [|p pat]; [congruence|].
  destruct s as [|c s]; [discriminate|].
  unfold replace_global at 1. simpl replace_global_from.
  simpl in H. rewrite H, Nat.sub_0_r, rg_from_skip. reflexivity.
Qed.

Lemma rg_nomatch (c : char) (s pat rep : str) :
  starts_with pat (c :: s) = false ->
  replace_global (c :: s) pat rep = c :: replace_global s pat rep.
Proof.
  intros H. unfold replace_global. simpl replace_global_from.
  rewrite H. reflexivity.
Qed.

(** The first match, if any, is replaced and the rest goes on after it. *)
Lemma rg_first (s pat rep : str) :
  pat <> [] ->
  replace_global s pat rep
  = match find pat s with
    | None => s
    | Some k =>
        firstn k s ++ rep
          ++ replace_global (skipn (k + length pat) s) pat rep
    end.
Proof.
  intros Hp. induction s as [|c s IH].
  - destruct pat; [congruence|reflexivity].
  - rewrite find_cons. destruct (starts_with pat (c :: s)) eqn:E.
    + rewrite (rg_match _ _ _ Hp E). reflexivity.
    + rewrite (rg_nomatch _ _ _ _ E), IH.
      destruct (find pat s) as [k|]; reflexivity.
Qed.

Lemma rg_id (s pat rep : str) :
  pat <> [] -> find pat s = None -> replace_global s pat rep = s.
Proof. intros Hp H. rewrite (rg_first _ _ _ Hp), H. reflexivity. Qed.

Lemma rg_at (u b pat rep : str) :
  pat <> [] -> find pat (u ++ pat) = Some (length u) ->
  replace_global (u ++ pat ++ b) pat rep = u ++ rep ++ replace_global b pat rep.
Proof.
  intros Hp H. rewrite (rg_first _ _ _ Hp), (find_at_end _ _ b H).
  rewrite firstn_app, firstn_all, Nat.sub_diag. simpl firstn.
  rewrite app_nil_r.
  rewrite (skipn_at (u ++ pat ++ b) (u ++ pat) b).
  - reflexivity.
  - rewrite <- app_assoc. reflexivity.
  - rewrite length_app. reflexivity.
Qed.

Lemma starts_with_not_in (pat b : str) (c : char) :
  pat <> [] -> ~ In c pat -> starts_with pat (c :: b) = false.
Proof.
  intros Hp Hc. destruct pat as [|p pat]; [congruence|]. simpl.
  destruct (char_eqb p c) eqn:E; [|reflexivity].
  apply char_eqb_eq in E. exfalso. apply Hc. left. exact E.
Qed.

(** No match runs over a character that the pattern does not have. *)
Lemma rg_sep (a b pat rep : str) (c : char) :
  pat <> [] -> ~ In c pat ->
  replace_global (a ++ c :: b) pat rep
  = replace_global a pat rep ++ c :: replace_global b pat rep.
Proof.
  intros Hp Hc. remember (length a) as n eqn:Hn. revert a Hn.
  induction n as [n IH] using lt_wf_ind. intros a Hn.
  destruct a as [|x a].
  - change (replace_global (c :: b) pat rep = c :: replace_global b pat rep).
    apply rg_nomatch, starts_with_not_in; assumption.
  - destruct (starts_with pat (x :: a)) eqn:E.
    + assert (E' : starts_with pat ((x :: a) ++ c :: b) = true)
        by (apply starts_with_app_l, E).
      pose proof (starts_with_length _ _ E) as L.
      rewrite (rg_match _ _ _ Hp E), (rg_match _ _ _ Hp E').
      rewrite skipn_app.
      replace (length pat - length (x :: a)) with 0 by lia.
      rewrite skipn_O, <- app_assoc. f_equal.
      apply (IH (length (skipn (length pat) (x :: a)))); [|reflexivity].
      subst n. rewrite length_skipn. destruct pat; [congruence|].
      simpl. lia.
    + assert (E' : starts_with pat (x :: a ++ c :: b) = false).
      { rewrite app_comm_cons, (starts_with_sep _ _ _ _ Hc). exact E. }
      rewrite <- app_comm_cons, (rg_nomatch _ _ _ _ E'), (rg_nomatch _ _ _ _ E).
      rewrite <- app_comm_cons. f_equal.
      apply (IH (length a)); [subst n; simpl; lia|reflexivity].
Qed.

Lemma rg_sep_clean (a b pat rep : str) (c : char) :
  pat <> [] -> ~ In c pat -> find pat a = None ->
  replace_global (a ++ c :: b) pat rep = a ++ c :: replace_global b pat rep.
Proof.
  intros Hp Hc Ha. rewrite (rg_sep _ _ _ _ _ Hp Hc), (rg_id _ _ _ Hp Ha).
  reflexivity.
Qed.

Lemma rg_cons_sep (b pat rep : str) (c : char) :
  pat <> [] -> ~ In c pat ->
  replace_global (c :: b) pat rep = c :: replace_global b pat rep.
Proof. intros Hp Hc. apply (rg_sep [] b pat rep c Hp Hc). Qed.

(** A replacement made of characters that [q] does not have puts [q]
    nowhere. *)
Lemma find_after_rep (q rep out : str) :
  q <> [] -> (forall x, In x rep -> ~ In x q) ->
  find q out = None -> find q (rep ++ out) = None.
Proof.
  intros Hq Hr Ho. induction rep as [|r rep IH]; [exact Ho|].
  change ((r :: rep) ++ out) with ([] ++ r :: (rep ++ out)).
  rewrite find_sep.
  - rewrite IH; [reflexivity|]. intros x Hx. apply Hr. right. exact Hx.
  - destruct q; [congruence|reflexivity].
  - apply Hr. left. reflexivity.
Qed.

Lemma rg_avoids (q pat rep : str) (s : str) :
  pat <> [] -> q <> [] -> rep <> [] ->
  (forall x, In x rep -> ~ In x q) ->
  q = pat \/ find q s = None ->
  find q (replace_global s pat rep) = None.
Proof.
  intros Hp Hq Hrep Hr. remember (length s) as n eqn:Hn. revert s Hn.
  induction n as [n IH] using lt_wf_ind. intros s Hn H.
  rewrite (rg_first _ _ _ Hp).
  destruct (find pat s) as [k|] eqn:F.
  - pose proof (find_Some_split _ _ _ F) as Es.
    pose proof (find_Some_prefix _ _ _ F) as Fu.
    set (u := firstn k s) in *.
    set (s2 := skipn (k + length pat) s) in *.
    assert (Hu : find q u = None).
    { destruct H as [->|H].
      - apply find_end_None; [exact Hp|exact Fu].
      - rewrite Es in H. apply find_None_app in H. tauto. }
    assert (H2 : q = pat \/ find q s2 = None).
    { destruct H as [->|H]; [left; reflexivity|right].
      rewrite Es in H. apply find_None_app in H. destruct H as [_ H].
      apply find_None_app in H. tauto. }
    assert (O2 : find q (replace_global s2 pat rep) = None).
    { apply (IH (length s2)); [|reflexivity|exact H2].
      subst n. rewrite Es, !length_app.
      destruct pat; [congruence|]. simpl. lia. }
    destruct rep as [|r rep]; [congruence|].
    rewrite <- app_comm_cons, find_sep.
    + rewrite find_after_rep; [reflexivity|exact Hq| |exact O2].
      intros x Hx. apply Hr. right. exact Hx.
    + exact Hu.
    + apply Hr. left. reflexivity.
  - destruct H as [->|H]; assumption.
Qed.

(** X5. The text that [handleCopyRawText] writes to the clipboard holds no
    opening and no closing delimiter, whatever the editor returned. *)
Theorem copied_text_has_no_delimiter
  (selected : bool) (finalRaw : option str) (out : str) :
  App.handleCopyRawText selected finalRaw = Some out ->
  includes out opener = false /\ includes out closer = false.
Proof.
  unfold App.handleCopyRawText. destruct selected; [|discriminate].
  destruct finalRaw as [r|]; [|discriminate]. intros [= <-].
  assert (T : forall q x, In x ticks -> q = opener \/ q = closer -> ~ In x q).
  { intros q x Hx [->| ->] Hq; unfold ticks, opener, closer in *;
      simpl in *; intuition congruence. }
  split; apply includes_false.
  - apply rg_avoids; try discriminate.
    + intros x Hx. apply (T opener x Hx). auto.
    + right. apply rg_avoids; try discriminate; [|left; reflexivity].
      intros x Hx. apply (T opener x Hx). auto.
  - apply rg_avoids; try discriminate; [|left; reflexivity].
    intros x Hx. apply (T closer x Hx). auto.
Qed.

Lemma copied_text_has_no_delimiter_witness :
  App.handleCopyRawText true
    (Some (lit "a{{{{js [readonly]" ++ nl :: lit "x}}}}b"))
  = Some (lit "a````{js " ++ nl :: lit "x````}b")
  /\ includes (lit "a````{js " ++ nl :: lit "x````}b") opener = false
  /\ includes (lit "a````{js " ++ nl :: lit "x````}b") closer = false.
Proof.
  split; [reflexivity|].
  apply (copied_text_has_no_delimiter true
           (Some (lit "a{{{{js [readonly]" ++ nl :: lit "x}}}}b"))).
  reflexivity.
Defined.

Lemma rg_text_sep (t y pat rep : str) (c : char) :
  pat <> [] -> ~ In c pat -> find pat t = None ->
  replace_global (t ++ c :: y) pat rep = t ++ replace_global (c :: y) pat rep.
Proof.
  intros Hp Hc Ht.
  rewrite (rg_sep_clean _ _ _ _ _ Hp Hc Ht), (rg_cons_sep _ _ _ _ Hp Hc).
  reflexivity.
Qed.

Lemma rg_at0 (y pat rep : str) :
  pat <> [] ->
  replace_global (pat ++ y) pat rep = rep ++ replace_global y pat rep.
Proof.
  intros Hp. rewrite (rg_match _ _ _ Hp (starts_with_app pat y)).
  rewrite (skipn_at (pat ++ y) pat y _ eq_refl eq_refl). reflexivity.
Qed.

Lemma rg_text_at (t y pat rep : str) :
  pat <> [] -> find pat (t ++ pat) = Some (length t) ->
  replace_global (t ++ pat ++ y) pat rep
  = t ++ replace_global (pat ++ y) pat rep.
Proof.
  intros Hp Ht. rewrite (rg_at _ _ _ _ Hp Ht), (rg_at0 _ _ _ Hp).
  reflexivity.
Qed.

(** The line of the language, with or without the space that is left of
    the marker. *)
Lemma rg_header (l z pat rep : str) (ro : bool) :
  pat <> [] -> ~ In space pat -> ~ In nl pat -> find pat l = None ->
  replace_global (l ++ (if ro then [space] else []) ++ nl :: z) pat rep
  = l ++ (if ro then [space] else []) ++ nl :: replace_global z pat rep.
Proof.
  intros Hp Hs Hn Hl. destruct ro; simpl app.
  - rewrite (rg_sep_clean _ _ _ _ _ Hp Hs Hl), (rg_cons_sep _ _ _ _ Hp Hn).
    reflexivity.
  - rewrite (rg_sep_clean _ _ _ _ _ Hp Hn Hl). reflexivity.
Qed.

Lemma render_as_code_app (o cl mk l c w : str) (ro : bool) :
  render_as o cl mk (Code l ro c) ++ w
  = o ++ l ++ (if ro then space :: mk else []) ++ nl :: c ++ cl ++ w.
Proof. unfold render_as. rewrite <- !app_assoc. reflexivity. Qed.

Lemma render_code_app (l c w : str) (ro : bool) :
  render (Code l ro c) ++ w
  = opener ++ l ++ (if ro then space :: marker else []) ++ nl :: c
      ++ closer ++ w.
Proof. apply (render_as_code_app opener closer marker). Qed.

Lemma field_free_code (pat l c : str) (ro : bool) :
  field_free pat (Code l ro c) = true ->
  find pat l = None /\ find pat c = None.
Proof.
  simpl. rewrite andb_true_iff, !negb_true_iff, !includes_false. tauto.
Qed.

Lemma field_free_text (pat t : str) :
  field_free pat (Text t) = true -> find pat t = None.
Proof. simpl. rewrite negb_true_iff, includes_false. tauto. Qed.

Ltac not_in_literal :=
  unfold marker, opener, closer, ticks, space, nl, lbrace, rbrace;
  simpl; intuition discriminate.

(** Characters that the pattern does not have stay as they are. *)
Lemma rg_lit_prefix (p y pat rep : str) :
  pat <> [] -> (forall x, In x p -> ~ In x pat) ->
  replace_global (p ++ y) pat rep = p ++ replace_global y pat rep.
Proof.
  intros Hp H. induction p as [|x p IH]; [reflexivity|].
  rewrite <- !app_comm_cons, rg_cons_sep; [|exact Hp|apply H; left; reflexivity].
  f_equal. apply IH. intros z Hz. apply H. right. exact Hz.
Qed.

Lemma rg_content_closer (c w pat rep : str) :
  pat <> [] -> ~ In rbrace pat -> find pat c = None ->
  replace_global (c ++ closer ++ w) pat rep
  = c ++ closer ++ replace_global w pat rep.
Proof.
  intros Hp Hr Hc.
  change (c ++ closer ++ w) with (c ++ rbrace :: ([rbrace; rbrace] ++ w)).
  rewrite (rg_sep_clean _ _ _ _ _ Hp Hr Hc), (rg_lit_prefix _ _ _ _ Hp).
  - reflexivity.
  - intros x [<-|[<-|[]]]; exact Hr.
Qed.

(** Taking the markers out of one code segment written by [buildRawText]. *)
Lemma rg_marker_code (l c w : str) (ro : bool) :
  find marker l = None -> find marker c = None ->
  replace_global (render (Code l ro c) ++ w) marker []
  = render_unmarked (Code l ro c) ++ replace_global w marker [].
Proof.
  intros Hl Hc. unfold render_unmarked.
  rewrite render_code_app, render_as_code_app.
  assert (Hp : marker <> []) by discriminate.
  assert (Hn : ~ In nl marker) by not_in_literal.
  assert (Hs : ~ In space marker) by not_in_literal.
  assert (Hr : ~ In rbrace marker) by not_in_literal.
  rewrite (rg_lit_prefix opener _ _ _ Hp)
    by (intros x [<-|[<-|[<-|[]]]]; not_in_literal).
  f_equal.
  assert (Z : replace_global (nl :: c ++ closer ++ w) marker []
              = nl :: c ++ closer ++ replace_global w marker []).
  { rewrite (rg_cons_sep _ _ _ _ Hp Hn).
    rewrite (rg_content_closer _ _ _ _ Hp Hr Hc). reflexivity. }
  destruct ro.
  - change (l ++ (space :: marker) ++ nl :: c ++ closer ++ w)
      with (l ++ space :: (marker ++ nl :: c ++ closer ++ w)).
    rewrite (rg_sep_clean _ _ _ _ _ Hp Hs Hl), (rg_at0 _ _ _ Hp), Z.
    reflexivity.
  - change (l ++ [] ++ nl :: c ++ closer ++ w)
      with (l ++ nl :: c ++ closer ++ w).
    rewrite (rg_sep_clean _ _ _ _ _ Hp Hn Hl).
    rewrite (rg_content_closer _ _ _ _ Hp Hr Hc). reflexivity.
Qed.

Lemma buildRawText_code_head (l c : str) (ro : bool) (d : list Segment) :
  exists y, buildRawText (Code l ro c :: d) = opener ++ y.
Proof.
  rewrite buildRawText_cons, render_code_app. eauto.
Qed.

(** Taking the markers out of a whole raw text. *)
Lemma strip_doc (d : list Segment) :
  no_adjacent_text d = true -> forallb (field_free marker) d = true ->
  replace_global (buildRawText d) marker []
  = concat (List.map render_unmarked d).
Proof.
  assert (Hp : marker <> []) by discriminate.
  induction d as [|seg d IH]; intros Ha Hf; [reflexivity|].
  simpl in Hf. apply andb_true_iff in Hf. destruct Hf as [Hs Hf].
  rewrite buildRawText_cons. cbn [List.map concat].
  destruct seg as [t|l ro c].
  - apply field_free_text in Hs. destruct d as [|[t'|l ro c] d].
    + change (buildRawText []) with (@nil char). simpl.
      rewrite !app_nil_r. apply (rg_id _ _ _ Hp Hs).
    + discriminate Ha.
    + rewrite <- IH by assumption.
      destruct (buildRawText_code_head l c ro d) as [y ->].
      apply (rg_text_sep t _ marker [] lbrace Hp); [not_in_literal|exact Hs].
  - destruct (field_free_code _ _ _ _ Hs) as [Hl Hc].
    rewrite (rg_marker_code _ _ _ _ Hl Hc). f_equal.
    apply IH; [|exact Hf]. destruct d; exact Ha.
Qed.

(** X6. For a document with no two adjacent text segments and no marker
    inside a field, the text that the first [handleCopyRawText] copies from
    the encoded document is the encoded document without its markers: the
    space that [buildRawText] puts before a marker stays. *)
Theorem copied_text_without_markers (d : list Segment) :
  no_adjacent_text d = true ->
  forallb (field_free marker) d = true ->
  App.handleCopyRawText_markers true (Some (buildRawText d))
  = Some (concat (List.map render_unmarked d)).
Proof.
  intros Ha Hf. unfold App.handleCopyRawText_markers.
  rewrite (strip_doc _ Ha Hf). reflexivity.
Qed.

Lemma copied_text_without_markers_witness :
  App.handleCopyRawText_markers true
    (Some (buildRawText
             [Text (lit "see ");
              Code (lit "py") true (lit "x = '}}}'");
              Code [] false (lit "{{{");
              Text (lit "[read")]))
  = Some (lit "see {{{py " ++ nl :: lit "x = '}}}'}}}{{{" ++ nl
            :: lit "{{{}}}[read").
Proof.
  apply (copied_text_without_markers
           [Text (lit "see ");
            Code (lit "py") true (lit "x = '}}}'");
            Code [] false (lit "{{{");
            Text (lit "[read")]);
    reflexivity.
Defined.

(** A segment with the opening delimiter already replaced. *)
Lemma rg_opener_code (l c w : str) (ro : bool) :
  find opener l = None -> find opener c = None ->
  replace_global (render_unmarked (Code l ro c) ++ w) opener ticks
  = render_as ticks closer [] (Code l ro c) ++ replace_global w opener ticks.
Proof.
  intros Hl Hc. unfold render_unmarked. rewrite !render_as_code_app.
  assert (Hp : opener <> []) by discriminate.
  rewrite (rg_at0 _ _ _ Hp). f_equal.
  rewrite (rg_header l _ opener ticks ro Hp) by (try not_in_literal; exact Hl).
  rewrite (rg_content_closer _ _ _ _ Hp) by (try not_in_literal; exact Hc).
  reflexivity.
Qed.

Lemma rg_closer_code (l c w : str) (ro : bool) :
  find closer l = None -> find closer (c ++ closer) = Some (length c) ->
  replace_global (render_as ticks closer [] (Code l ro c) ++ w) closer ticks
  = render_fenced (Code l ro c) ++ replace_global w closer ticks.
Proof.
  intros Hl Hc. unfold render_fenced. rewrite !render_as_code_app.
  assert (Hp : closer <> []) by discriminate.
  rewrite (rg_lit_prefix ticks _ _ _ Hp)
    by (intros x [<-|[<-|[<-|[<-|[]]]]]; not_in_literal).
  f_equal.
  rewrite (rg_header l _ closer ticks ro Hp) by (try not_in_literal; exact Hl).
  rewrite (rg_at _ _ _ _ Hp Hc). reflexivity.
Qed.

(** The conditions of [exportable] on the first segment. *)
Lemma exportable_cons (seg : Segment) (d : list Segment) :
  exportable (seg :: d) = true ->
  field_free marker seg = true /\ field_free opener seg = true
  /\ field_free closer seg = true /\ exportable d = true
  /\ match seg, d with
     | Text _, Text _ :: _ => False
     | Text t, Code _ _ _ :: _ => find opener (t ++ opener) = Some (length t)
     | Text _, [] => True
     | Code _ _ c, _ => find closer (c ++ closer) = Some (length c)
     end.
Proof.
  simpl. rewrite !andb_true_iff. intros [[[[M O] C] J] E].
  repeat split; try assumption.
  destruct seg as [t|l ro c].
  - destruct d as [|[t'|l ro c] d]; [exact I|discriminate|].
    apply negb_true_iff in J. apply field_free_text in O.
    apply opener_end; [apply includes_false, O|exact J].
  - apply negb_true_iff in J. apply field_free_code in C.
    apply closer_end; [apply includes_false; tauto|exact J].
Qed.

Lemma exportable_strip (d : list Segment) :
  exportable d = true ->
  no_adjacent_text d = true /\ forallb (field_free marker) d = true.
Proof.
  induction d as [|seg d IH]; intros H; [auto|].
  destruct (exportable_cons _ _ H) as (M & _ & _ & E & J).
  destruct (IH E) as [A F]. split.
  - destruct seg as [t|l ro c]; [|exact A].
    destruct d as [|[t'|l ro c] d]; [reflexivity|contradiction|exact A].
  - simpl. rewrite M, F. reflexivity.
Qed.

Lemma unmarked_code_head (l c : str) (ro : bool) (d : list Segment) :
  exists y,
    concat (List.map render_unmarked (Code l ro c :: d)) = opener ++ y.
Proof.
  cbn [List.map concat]. unfold render_unmarked.
  rewrite render_as_code_app. eauto.
Qed.

Lemma half_code_head (l c : str) (ro : bool) (d : list Segment) :
  exists y,
    concat (List.map (render_as ticks closer []) (Code l ro c :: d))
    = ticks ++ y.
Proof. cbn [List.map concat]. rewrite render_as_code_app. eauto. Qed.

(** Replacing the opening delimiters of a raw text without markers. *)
Lemma fence_open_doc (d : list Segment) :
  exportable d = true ->
  replace_global (concat (List.map render_unmarked d)) opener ticks
  = concat (List.map (render_as ticks closer []) d).
Proof.
  assert (Hp : opener <> []) by discriminate.
  induction d as [|seg d IH]; intros H; [reflexivity|].
  destruct (exportable_cons _ _ H) as (_ & O & _ & E & J).
  cbn [List.map concat]. destruct seg as [t|l ro c].
  - apply field_free_text in O. destruct d as [|[t'|l ro c] d].
    + simpl. rewrite !app_nil_r. apply (rg_id _ _ _ Hp O).
    + contradiction.
    + rewrite <- (IH E).
      destruct (unmarked_code_head l c ro d) as [y ->].
      apply (rg_text_at _ _ _ _ Hp J).
  - destruct (field_free_code _ _ _ _ O) as [Hl Hc].
    rewrite (rg_opener_code _ _ _ _ Hl Hc), (IH E). reflexivity.
Qed.

(** Replacing the closing delimiters after that. *)
Lemma fence_close_doc (d : list Segment) :
  exportable d = true ->
  replace_global (concat (List.map (render_as ticks closer []) d)) closer ticks
  = concat (List.map render_fenced d).
Proof.
  assert (Hp : closer <> []) by discriminate.
  induction d as [|seg d IH]; intros H; [reflexivity|].
  destruct (exportable_cons _ _ H) as (_ & _ & C & E & J).
  cbn [List.map concat]. destruct seg as [t|l ro c].
  - apply field_free_text in C. destruct d as [|[t'|l ro c] d].
    + simpl. rewrite !app_nil_r. apply (rg_id _ _ _ Hp C).
    + contradiction.
    + rewrite <- (IH E).
      destruct (half_code_head l c ro d) as [y ->].
      apply (rg_text_sep t _ closer ticks 96%N Hp); [not_in_literal|exact C].
  - destruct (field_free_code _ _ _ _ C) as [Hl Hc].
    rewrite (rg_closer_code _ _ _ _ Hl J), (IH E). reflexivity.
Qed.

(** X7. For a document in which no field holds the marker or a delimiter,
    no text segment is followed by a text segment or ends with an opening
    brace before a code segment, and no content ends with a closing brace,
    the text that [handleCopyRawText] copies from the encoded document is
    the document with every code segment between two fences of four
    backticks: the language, one space if the segment is read-only, a
    newline and the content. *)
Theorem copied_text_is_fenced (d : list Segment) :
  exportable d = true ->
  App.handleCopyRawText true (Some (buildRawText d))
  = Some (concat (List.map render_fenced d)).
Proof.
  intros H. unfold App.handleCopyRawText.
  destruct (exportable_strip _ H) as [A F].
  rewrite (strip_doc _ A F), (fence_open_doc _ H), (fence_close_doc _ H).
  reflexivity.
Qed.

Lemma copied_text_is_fenced_witness :
  App.handleCopyRawText true
    (Some (buildRawText
             [Text (lit "see ");
              Code (lit "py") true (lit "x = {1};");
              Code [] false (lit "y");
              Text (lit "}one{")]))
  = Some (lit "see ````py " ++ nl :: lit "x = {1};````````" ++ nl
            :: lit "y````}one{").
Proof.
  apply (copied_text_is_fenced
           [Text (lit "see ");
            Code (lit "py") true (lit "x = {1};");
            Code [] false (lit "y");
            Text (lit "}one{")]);
    reflexivity.
Defined.

End Copy.

(** ** Runs of changes, and documents that both versions read *)

Section Edits.

Import Store.

Lemma view_lookup (h : heap) (rs : list ref) :
  forall (d : list Segment) (idx : nat) (r : ref),
  view h rs = Some d -> nth_error rs idx = Some r ->
  nth_error d idx = nth_error h r.
Proof.
  induction rs as [|r0 rs IH]; intros d idx r V N.
  - destruct idx; discriminate.
  - simpl in V. destruct (nth_error h r0) as [x0|] eqn:E0; [|discriminate].
    destruct (view h rs) as [ds|] eqn:Vs; [|discriminate].
    injection V as <-. destruct idx as [|idx]; simpl in N.
    + injection N as <-. simpl. congruence.
    + simpl. apply (IH ds idx r eq_refl N).
Qed.

Lemma frame_set (d : list Segment) (idx : nat) (l c v : str) :
  nth_error d idx = Some (Code l false c) ->
  List.map frame (firstn idx d ++ Code l false v :: skipn (S idx) d)
  = List.map frame d.
Proof.
  intros N. rewrite (split_at _ _ _ _ N) at 3.
  rewrite !map_app. reflexivity.
Qed.

Lemma edits_frame (changes : list (nat * str)) :
  forall (h : heap) (segments : list ref) (d : list Segment),
  distinct segments = true -> view h segments = Some d ->
  edits h segments changes <> Thrown
  /\ forall h' segments',
       edits h segments changes = Done h' segments' ->
       segments' = segments
       /\ exists d', view h' segments = Some d'
                     /\ List.map frame d' = List.map frame d.
Proof.
  induction changes as [|[idx v] rest IH]; intros h segments d D V.
  - split; [discriminate|]. intros h' s' [= <- <-]. split; [reflexivity|].
    exists d. auto.
  - simpl. unfold editable.
    destruct (nth_error segments idx) as [r|] eqn:Nr;
      [|split; [discriminate|intros ? ? [=]]].
    destruct (nth_error h r) as [[t|l [|] c]|] eqn:Hr;
      try (split; [discriminate|intros ? ? [=]]).
    assert (N : nth_error d idx = Some (Code l false c)).
    { rewrite (view_lookup _ _ _ _ _ V Nr). exact Hr. }
    destruct (content_change_distinct h segments d idx l false c v D V N)
      as (r' & Nr' & Hh & Hv).
    rewrite Hh.
    destruct (IH _ _ _ D Hv) as [T F]. split; [exact T|].
    intros h' s' E. destruct (F h' s' E) as (-> & d' & V' & M).
    split; [reflexivity|]. exists d'. split; [exact V'|].
    rewrite M. apply (frame_set _ _ _ _ _ N).
Qed.

(** X8. Whatever is typed into the textareas of the enhanced editor, in any
    number of changes, [handleSegmentChange] never throws, the array keeps
    the same objects, and the document differs from the one that was decoded
    at most in the contents of code segments that are not read-only: every
    text segment, every read-only code segment and every language is as
    before. *)
Theorem edits_keep_frame
  (h0 : heap) (d : list Segment) (changes : list (nat * str)) :
  edits (fst (alloc h0 d)) (snd (alloc h0 d)) changes <> Thrown
  /\ forall h' segments',
       edits (fst (alloc h0 d)) (snd (alloc h0 d)) changes
       = Done h' segments' ->
       segments' = snd (alloc h0 d)
       /\ exists d', view h' segments' = Some d'
                     /\ length d' = length d
                     /\ List.map frame d' = List.map frame d.
Proof.
  destruct (edits_frame changes _ _ d (alloc_distinct h0 d) (alloc_view h0 d))
    as [T F].
  split; [exact T|]. intros h' s' E.
  destruct (F h' s' E) as (-> & d' & V & M).
  split; [reflexivity|]. exists d'. split; [exact V|]. split; [|exact M].
  apply (f_equal (@length Segment)) in M. rewrite !length_map in M. exact M.
Qed.

Lemma edits_keep_frame_witness :
  exists h' d',
    edits [Text (lit "a"); Code (lit "js") false (lit "x");
           Code (lit "py") true (lit "y")] [0; 1; 2]
          [(1, lit "x1"); (1, lit "x2")]
    = Done h' [0; 1; 2]
    /\ view h' [0; 1; 2] = Some d'
    /\ List.map frame d'
       = List.map frame [Text (lit "a"); Code (lit "js") false (lit "x");
                         Code (lit "py") true (lit "y")].
Proof.
  destruct (edits_keep_frame []
              [Text (lit "a"); Code (lit "js") false (lit "x");
               Code (lit "py") true (lit "y")]
              [(1, lit "x1"); (1, lit "x2")]) as [_ F].
  destruct (F _ _ eq_refl) as (_ & d' & V & _ & M).
  eexists. exists d'. split; [reflexivity|]. split; [exact V|exact M].
Defined.

Lemma writable_builds_agree (d : list Segment) :
  forallb writable d = true ->
  ParseSegmentsJs.buildRawText d = buildRawText d.
Proof.
  intros H. rewrite legacy_build_concat, buildRawText_concat.
  apply (f_equal (@concat char)), map_ext_in. intros seg Hin.
  rewrite forallb_forall in H. specialize (H seg Hin).
  destruct seg as [c|l ro c]; [reflexivity|].
  simpl in H. apply negb_true_iff in H. subst ro.
  rewrite legacy_render_code. unfold render, roMarker.
  rewrite <- !app_assoc. reflexivity.
Qed.

Lemma canonical_legacy (d : list Segment) :
  canonical d = true -> forallb writable d = true ->
  legacy_canonical d = true.
Proof.
  induction d as [|seg d IH]; intros C W; [reflexivity|].
  simpl in W. apply andb_true_iff in W. destruct W as [Ws W].
  destruct seg as [t|l ro c].
  - simpl in C. rewrite !andb_true_iff in C. destruct C as [[[T O] J] C].
    simpl. rewrite T, O, J, (IH C W). reflexivity.
  - simpl in C. apply andb_true_iff in C. destruct C as [Cc C].
    simpl. rewrite (IH C W), andb_true_r.
    simpl in Ws. unfold canonical_code in Cc. unfold legacy_canonical_code.
    rewrite !andb_true_iff in Cc.
    destruct Cc as [[[[[T N] M] Cl] I] E].
    rewrite Ws, T, N, Cl, I, E. reflexivity.
Qed.

(** X9. A document with no read-only segment that [parseSegments] of
    [Editor.jsx] reads back from its encoding is read alike by both
    versions: each decoder returns the document from what either encoder
    writes. *)
Theorem versions_read_each_other (d : list Segment) :
  canonical d = true -> forallb writable d = true ->
  ParseSegmentsJs.parseSegments (buildRawText d) = Some d
  /\ parseSegments (ParseSegmentsJs.buildRawText d) = Some d.
Proof.
  intros C W. rewrite (writable_builds_agree _ W). split.
  - rewrite <- (writable_builds_agree _ W).
    destruct (legacy_canonical_Cut (length d) d (le_n _)
                (canonical_legacy _ C W)) as (ps & HC & E).
    rewrite (Cut_legacy _ _ HC), E. reflexivity.
  - apply Parse_parseSegments, (canonical_Parse (length d)); auto.
Qed.

Lemma versions_read_each_other_witness :
  ParseSegmentsJs.parseSegments
    (buildRawText [Text (lit "abc"); Code (lit "python") false (lit "print(1)");
                   Code [] false (lit "x=1"); Text (lit "def{")])
  = Some [Text (lit "abc"); Code (lit "python") false (lit "print(1)");
          Code [] false (lit "x=1"); Text (lit "def{")]
  /\ parseSegments
       (ParseSegmentsJs.buildRawText
          [Text (lit "abc"); Code (lit "python") false (lit "print(1)");
           Code [] false (lit "x=1"); Text (lit "def{")])
     = Some [Text (lit "abc"); Code (lit "python") false (lit "print(1)");
             Code [] false (lit "x=1"); Text (lit "def{")].
Proof.
  apply (versions_read_each_other
           [Text (lit "abc"); Code (lit "python") false (lit "print(1)");
            Code [] false (lit "x=1"); Text (lit "def{")]);
    reflexivity.
Defined.

(** X10. Decoding and encoding a raw text rewrites it piece by piece, along
    the pieces that [parseSegments] cuts: the text outside the blocks stays
    as it is, character for character, and every block, closed or not, is
    written again from the segment made of its body, between an opening and
    a closing delimiter, so that a block that was never closed is closed. *)
Theorem reencode_piecewise (s : str) :
  exists ps,
    s = concat (List.map piece_raw ps)
    /\ parseSegments s = Some (List.map editor_segment ps)
    /\ reencode s
       = Some (concat (List.map (fun p => render (editor_segment p)) ps))
    /\ forall p, In p ps ->
       match p with
       | PText t => render (editor_segment p) = t
       | PBlock _ | POpen _ =>
           exists y, render (editor_segment p) = opener ++ y ++ closer
       end.
Proof.
  destruct (Cut_total s) as [ps H]. exists ps.
  pose proof (Parse_parseSegments _ _ (Cut_Parse _ _ H)) as P.
  split; [apply Cut_raw, H|]. split; [exact P|]. split.
  - unfold reencode. rewrite P. simpl.
    rewrite buildRawText_concat, map_map. reflexivity.
  - assert (B : forall b, exists y,
                render (parseCodeBlock b) = opener ++ y ++ closer).
    { intros b. destruct (parseCodeBlock_shape b) as (h & c & -> & _).
      exists (header_language h ++ roMarker (includes h marker) ++ [nl] ++ c).
      unfold render. rewrite <- !app_assoc. reflexivity. }
    intros [t|b|b] _; simpl; auto.
Qed.

End Edits.
